(** * shared-github-internals: [src/git.ts] and [src/git.js]

    A shallow embedding of the pull-request commit reordering performed by
    [fetchCommitsDetails] and of the temporary-reference helpers
    ([generateUniqueRef], [createTemporaryRef], [withTemporaryRef]), together
    with the properties of both that the specification talks about.

    Arrays are lists, [splice] is written out with [take] and [drop], the
    [for] loops re-test [commits.length] at every round, a thrown exception or
    rejected promise is a [Throw] completion, and the asynchronous functions
    are state transformers of the remote world that also record the requests
    they send. *)

From stdpp Require Import base list strings gmap.
From Stdlib Require Import Lia.

Local Open Scope string_scope.
Local Open Scope list_scope.

(** ** Data model *)

Definition PullRequestNumber := nat.
Definition Ref := string.
Definition RepoName := string.
Definition RepoOwner := string.
Definition Sha := string.
Definition CommitMessage := string.
Definition CommitAuthor := string.
Definition CommitCommitter := string.

(** [item.commit] of a pull-request commit listing entry; [tree] stands for
    [commit.tree.sha]. *)
Record Commit := mkCommit {
  author : CommitAuthor;
  committer : CommitCommitter;
  message : CommitMessage;
  tree : Sha
}.

(** One entry of the listing ([Octokit.PullsListCommitsResponseItem]).
    [parents] holds [parents[k].sha] for every parent object, in order: the
    sha is the only field of a parent that the module reads. *)
Record PullsListCommitsResponseItem := mkItem {
  sha : Sha;
  parents : list Sha;
  commit : Commit
}.

Record CommitDetails := mkDetails {
  details_author : CommitAuthor;
  details_committer : CommitCommitter;
  details_message : CommitMessage;
  details_sha : Sha;
  details_tree : Sha
}.

(** Values a JavaScript computation can throw or a promise can reject with.
    [TypeError] is what the runtime raises on a property read of [undefined];
    everything else (the remote collaborator's failures, whatever an action
    throws) is identified by name. *)
Inductive Exn : Type :=
| TypeError
| Rejection (name : string).

(** The errors the specification names.  No path of the source raises
    [HeadNotFoundError]; the other two are refusals of the remote. *)
Definition HeadNotFoundError : Exn := Rejection "HeadNotFoundError".
Definition RefNotFoundError : Exn := Rejection "RefNotFoundError".
Definition RefAlreadyExistsError : Exn := Rejection "RefAlreadyExistsError".

(** How a computation ends.  [Diverge] stands for a computation that never
    settles: an action or a request whose promise stays pending, or a loop cut
    off by its step budget ([linearize_total] shows the reordering never ends
    that way). *)
Inductive Completion (A : Type) : Type :=
| Normal (a : A)
| Throw (e : Exn)
| Diverge.
Arguments Normal {A} a.
Arguments Throw {A} e.
Arguments Diverge {A}.

Definition and_then {A B} (c : Completion A) (k : A -> Completion B) : Completion B :=
  match c with
  | Normal a => k a
  | Throw e => Throw e
  | Diverge => Diverge
  end.

Notation "'let*' x := c 'in' k" := (and_then c (fun x => k))
  (at level 10, x name, c at level 100, k at level 200).

Global Instance Exn_eq_dec : EqDecision Exn.
Proof. solve_decision. Defined.
Global Instance Commit_eq_dec : EqDecision Commit.
Proof. solve_decision. Defined.
Global Instance Item_eq_dec : EqDecision PullsListCommitsResponseItem.
Proof. solve_decision. Defined.

(** ** Array primitives *)

(** [commits.splice(i, 1)]: the array without its element at index [i]
    (unchanged when [i] is past the end). *)
Definition splice_remove {A} (i : nat) (l : list A) : list A :=
  take i l ++ drop (S i) l.

(** [commits.splice(k, 0, x)]: [x] inserted before index [k]; a start index
    past the end is clamped to the length, so [x] is appended. *)
Definition splice_insert {A} (k : nat) (x : A) (l : list A) : list A :=
  take k l ++ x :: drop k l.

(** [commits.splice(k, 0, commits.splice(i, 1)[0])] where [x] is the element
    read at index [i]. *)
Definition move_to {A} (i k : nat) (x : A) (l : list A) : list A :=
  splice_insert k x (splice_remove i l).

(** ** The reordering step of [fetchCommitsDetails] *)

(** First loop:
    [for (var i = 0; i < commits.length; i++)
       if (commits[i].sha === pr.data.head.sha)
         commits.splice(0, 0, commits.splice(i, 1)[0]);] *)
Fixpoint head_loop (fuel i : nat) (headSha : Sha)
    (commits : list PullsListCommitsResponseItem)
  : Completion (list PullsListCommitsResponseItem) :=
  match fuel with
  | 0 => Diverge
  | S fuel' =>
    if decide (i < length commits) then
      match commits !! i with
      | None => Throw TypeError
      | Some ci =>
        if decide (sha ci = headSha)
        then head_loop fuel' (S i) headSha (move_to i 0 ci commits)
        else head_loop fuel' (S i) headSha commits
      end
    else Normal commits
  end.

(** Inner loop of the second nest, for a fixed [j]:
    [for (var i = 0; i < commits.length; i++)
       if (commits[i].sha === commits[j].parents[0].sha)
         commits.splice(j + 1, 0, commits.splice(i, 1)[0]);]
    Reading [.sha] of [commits[j].parents[0]] throws when the parents array is
    empty. *)
Fixpoint inner_loop (fuel j i : nat)
    (commits : list PullsListCommitsResponseItem)
  : Completion (list PullsListCommitsResponseItem) :=
  match fuel with
  | 0 => Diverge
  | S fuel' =>
    if decide (i < length commits) then
      match commits !! i with
      | None => Throw TypeError
      | Some ci =>
        match commits !! j with
        | None => Throw TypeError
        | Some cj =>
          match parents cj !! 0 with
          | None => Throw TypeError
          | Some p =>
            if decide (sha ci = p)
            then inner_loop fuel' j (S i) (move_to i (S j) ci commits)
            else inner_loop fuel' j (S i) commits
          end
        end
      end
    else Normal commits
  end.

(** Outer loop: [for (var j = 0; j < commits.length; j++) { inner loop }]. *)
Fixpoint outer_loop (fuel j : nat)
    (commits : list PullsListCommitsResponseItem)
  : Completion (list PullsListCommitsResponseItem) :=
  match fuel with
  | 0 => Diverge
  | S fuel' =>
    if decide (j < length commits) then
      let* commits' := inner_loop (S (length commits)) j 0 commits in
      outer_loop fuel' (S j) commits'
    else Normal commits
  end.

(** Lines 236-251 of [git.ts]: both loops, then [commits.reverse()].
    [commits] is what [octokit.paginate] returned and [headSha] is
    [pr.data.head.sha]. *)
Definition linearize (commits : list PullsListCommitsResponseItem)
    (headSha : Sha) : Completion (list PullsListCommitsResponseItem) :=
  let* c1 := head_loop (S (length commits)) 0 headSha commits in
  let* c2 := outer_loop (S (length c1)) 0 c1 in
  Normal (reverse c2).

Definition getCommitsDetails (item : PullsListCommitsResponseItem) : CommitDetails :=
  {| details_author := author (commit item);
     details_committer := committer (commit item);
     details_message := message (commit item);
     details_sha := sha item;
     details_tree := tree (commit item) |}.

(** ** Vocabulary for the properties of the reordering *)

Implicit Types (commits chain : list PullsListCommitsResponseItem).
Implicit Types (headSha : Sha).

(** [c.parents[0].sha], when there is a first parent. *)
Definition first_parent (c : PullsListCommitsResponseItem) : option Sha :=
  parents c !! 0.

Definition has_first_parent (c : PullsListCommitsResponseItem) : Prop :=
  is_Some (first_parent c).

Global Instance has_first_parent_dec c : Decision (has_first_parent c).
Proof. unfold has_first_parent. apply _. Defined.

(** Oldest first: every entry's first parent is the entry before it
    ([chain[i+1].parents[0].sha === chain[i].sha]). *)
Definition consecutive chain : Prop :=
  forall i c d, chain !! i = Some c -> chain !! S i = Some d ->
    first_parent d = Some (sha c).

(** Newest first: every entry's first parent is the entry after it. *)
Definition descending (walk : list PullsListCommitsResponseItem) : Prop :=
  forall i c d, walk !! i = Some c -> walk !! S i = Some d ->
    first_parent c = Some (sha d).

(** The first parent of [c] is the sha of a listed entry. *)
Definition resolvable commits (c : PullsListCommitsResponseItem) : Prop :=
  exists p, first_parent c = Some p /\ p ∈ sha <$> commits.

(** [chain], oldest first, is a single linear lineage ending at [headSha]:
    unique shas, every entry but the first has the entry before it as first
    parent, the first entry (the root) has no first parent among the listed
    entries, be it absent or outside the listing, and the last entry carries
    [headSha]. *)
Record linear_chain chain headSha : Prop := {
  chain_unique : NoDup (sha <$> chain);
  chain_linked : consecutive chain;
  chain_root : forall r, head chain = Some r -> ~ resolvable chain r;
  chain_head : sha <$> last chain = Some headSha
}.

(** The listing is, in some order, a linear chain ending at [headSha]. *)
Definition forms_linear_chain commits headSha : Prop :=
  exists chain, commits ≡ₚ chain /\ linear_chain chain headSha.

(** [c] is reached from the entry with sha [headSha] by following first-parent
    links through listed entries. *)
Inductive reachable commits headSha : PullsListCommitsResponseItem -> Prop :=
| reach_head c :
    c ∈ commits -> sha c = headSha -> reachable commits headSha c
| reach_parent d c :
    reachable commits headSha d -> c ∈ commits ->
    first_parent d = Some (sha c) -> reachable commits headSha c.

(** [walk], newest first, is a walk from the head: it starts at an entry with
    sha [headSha], stays within the listing and follows first-parent links. *)
Definition walk_from commits headSha (walk : list PullsListCommitsResponseItem) : Prop :=
  sha <$> head walk = Some headSha
  /\ descending walk
  /\ (forall c, c ∈ walk -> c ∈ commits).

(** ** The remote collaborator and the reference helpers *)

(** What the module does to its collaborators, in order: the requests sent
    through [octokit] and the invocation of a caller-supplied action. *)
Inductive Event : Type :=
| GitGetRef (owner : RepoOwner) (ref : Ref) (repo : RepoName)
| GitUpdateRef (force : bool) (owner : RepoOwner) (ref : Ref) (repo : RepoName) (sha : Sha)
| GitDeleteRef (owner : RepoOwner) (ref : Ref) (repo : RepoName)
| GitCreateRef (owner : RepoOwner) (ref : Ref) (repo : RepoName) (sha : Sha)
| PullsListCommits (number : PullRequestNumber) (owner : RepoOwner) (repo : RepoName)
| PullsGet (number : PullRequestNumber) (owner : RepoOwner) (repo : RepoName)
| ActionCall (ref : Ref).

Global Instance Event_eq_dec : EqDecision Event.
Proof. solve_decision. Defined.

(** The outcome of running an asynchronous function to its end from a given
    state of the remote world: the events it caused, the world it leaves and
    how it completed (a rejected promise is a [Throw]). *)
Record Run (W A : Type) := mkRun {
  trace : list Event;
  world : W;
  completion : Completion A
}.
Arguments mkRun {W A}.
Arguments trace {W A}.
Arguments world {W A}.
Arguments completion {W A}.

Definition Async (W A : Type) : Type := W -> Run W A.

Definition settle {W A} (c : Completion A) : Async W A :=
  fun w => mkRun [] w c.

Definition resolve {W A} (a : A) : Async W A := settle (Normal a).

Definition reject {W A} (e : Exn) : Async W A := settle (Throw e).

(** [const x = await m; k x] *)
Definition await {W A B} (m : Async W A) (k : A -> Async W B) : Async W B :=
  fun w =>
    let r := m w in
    match completion r with
    | Normal a =>
      let r' := k a (world r) in
      mkRun (trace r ++ trace r') (world r') (completion r')
    | Throw e => mkRun (trace r) (world r) (Throw e)
    | Diverge => mkRun (trace r) (world r) Diverge
    end.

Notation "x <- m ;; k" := (await m (fun x => k))
  (at level 90, m at next level, right associativity).

(** [try { return await body; } finally { await cleanup; }]: once [body] has
    completed, normally or not, [cleanup] runs; when [cleanup] completes
    normally the completion of [body] stands, and when [cleanup] throws, its
    exception is the completion of the whole statement. *)
Definition try_finally {W A} (body : Async W A) (cleanup : Async W unit) : Async W A :=
  fun w =>
    let r := body w in
    match completion r with
    | Diverge => r
    | _ =>
      let r' := cleanup (world r) in
      mkRun (trace r ++ trace r') (world r')
        match completion r' with
        | Normal _ => completion r
        | Throw e => Throw e
        | Diverge => Diverge
        end
    end.

(** The requests of [octokit] the module uses, as state transformers of the
    remote world.  [paginate_pulls_listCommits] is [octokit.paginate] on the
    commit listing of a pull request; [pulls_get] yields
    [pr.data.head.sha]. *)
Record Octokit (W : Type) := mkOctokit {
  git_getRef : RepoOwner -> Ref -> RepoName -> W -> W * Completion Sha;
  git_updateRef : bool -> RepoOwner -> Ref -> RepoName -> Sha -> W -> W * Completion unit;
  git_deleteRef : RepoOwner -> Ref -> RepoName -> W -> W * Completion unit;
  git_createRef : RepoOwner -> Ref -> RepoName -> Sha -> W -> W * Completion unit;
  paginate_pulls_listCommits :
    PullRequestNumber -> RepoOwner -> RepoName ->
    W -> W * Completion (list PullsListCommitsResponseItem);
  pulls_get : PullRequestNumber -> RepoOwner -> RepoName -> W -> W * Completion Sha
}.
Arguments git_getRef {W}.
Arguments git_updateRef {W}.
Arguments git_deleteRef {W}.
Arguments git_createRef {W}.
Arguments paginate_pulls_listCommits {W}.
Arguments pulls_get {W}.

Definition request {W A} (ev : Event) (f : W -> W * Completion A) : Async W A :=
  fun w => let '(w', c) := f w in mkRun [ev] w' c.

Definition getHeadRef (ref : Ref) : Ref := "heads/" +:+ ref.
Definition getFullyQualifiedRef (ref : Ref) : Ref := "refs/" +:+ getHeadRef ref.

(** The functions below carry the names of [git.ts].  [git.js] has the same
    reference helpers under older names ([fetchReferenceSha],
    [updateReference], [deleteReference], [createReference],
    [createTemporaryReference], [withTemporaryReference]) with the same
    bodies. *)
Section Refs.
Context {W : Type}.
Variable generateUuid : W -> W * string.
Variable octokit : Octokit W.

Definition generateUniqueRef (ref : Ref) : Async W Ref :=
  fun w => let '(w', uuid) := generateUuid w in
           mkRun [] w' (Normal (ref +:+ "-" +:+ uuid)).

Definition fetchRefSha (owner : RepoOwner) (ref : Ref) (repo : RepoName) : Async W Sha :=
  request (GitGetRef owner (getHeadRef ref) repo)
          (git_getRef octokit owner (getHeadRef ref) repo).

Definition updateRef (force : bool) (owner : RepoOwner) (ref : Ref)
    (repo : RepoName) (sha : Sha) : Async W unit :=
  request (GitUpdateRef force owner (getHeadRef ref) repo sha)
          (git_updateRef octokit force owner (getHeadRef ref) repo sha).

Definition deleteRef (owner : RepoOwner) (ref : Ref) (repo : RepoName) : Async W unit :=
  request (GitDeleteRef owner (getHeadRef ref) repo)
          (git_deleteRef octokit owner (getHeadRef ref) repo).

Definition createRef (owner : RepoOwner) (ref : Ref) (repo : RepoName)
    (sha : Sha) : Async W unit :=
  request (GitCreateRef owner (getFullyQualifiedRef ref) repo sha)
          (git_createRef octokit owner (getFullyQualifiedRef ref) repo sha).

(** Returns [{ deleteTemporaryRef, temporaryRef }]. *)
Definition createTemporaryRef (owner : RepoOwner) (ref : Ref) (repo : RepoName)
    (sha : Sha) : Async W (Async W unit * Ref) :=
  temporaryRef <- generateUniqueRef ref ;;
  _ <- createRef owner temporaryRef repo sha ;;
  resolve (deleteRef owner temporaryRef repo, temporaryRef).

(** [action(temporaryRef)], with the call itself on record. *)
Definition call_action {T} (action : Ref -> Async W T) (ref : Ref) : Async W T :=
  fun w => let r := action ref w in
           mkRun (ActionCall ref :: trace r) (world r) (completion r).

Definition withTemporaryRef {T} (action : Ref -> Async W T) (owner : RepoOwner)
    (ref : Ref) (repo : RepoName) (sha : Sha) : Async W T :=
  created <- createTemporaryRef owner ref repo sha ;;
  let '(deleteTemporaryRef, temporaryRef) := created in
  try_finally (call_action action temporaryRef) deleteTemporaryRef.

Definition fetchCommitsDetails (owner : RepoOwner)
    (pullRequestNumber : PullRequestNumber) (repo : RepoName)
  : Async W (list CommitDetails) :=
  commits <- request (PullsListCommits pullRequestNumber owner repo)
               (paginate_pulls_listCommits octokit pullRequestNumber owner repo) ;;
  headSha <- request (PullsGet pullRequestNumber owner repo)
               (pulls_get octokit pullRequestNumber owner repo) ;;
  ordered <- settle (linearize commits headSha) ;;
  resolve (map getCommitsDetails ordered).

Definition fetchCommits (owner : RepoOwner)
    (pullRequestNumber : PullRequestNumber) (repo : RepoName) : Async W (list Sha) :=
  details <- fetchCommitsDetails owner pullRequestNumber repo ;;
  resolve (map details_sha details).
End Refs.

(** How many times the deletion of [ref] was requested in [tr]. *)
Definition deletions_of (owner : RepoOwner) (ref : Ref) (repo : RepoName)
    (tr : list Event) : nat :=
  length (filter (fun ev => ev = GitDeleteRef owner (getHeadRef ref) repo) tr).

(** ** Sample listings and a fake remote *)

(** An entry with the given sha and parent shas. *)
Definition item (s : Sha) (ps : list Sha) : PullsListCommitsResponseItem :=
  mkItem s ps (mkCommit "author" "committer" ("message " +:+ s) ("tree " +:+ s)).

Definition commitA := item "A" ["X"].
Definition commitB := item "B" ["A"].
Definition commitC := item "C" ["B"].
Definition rootA := item "A" [].
Definition baseB := item "B" ["X"].
Definition strayD := item "D" ["Y"].
Definition strayE := item "E" ["Z"].

(** A fake remote: the refs it holds, by fully qualified name, the uuids it
    will hand out next, and the one pull request it knows. *)
Record FakeRemote := mkFake {
  fake_refs : gmap string Sha;
  fake_uuids : list string;
  fake_listing : list PullsListCommitsResponseItem;
  fake_head : Sha
}.

Definition fake_with_refs (w : FakeRemote) (refs : gmap string Sha) : FakeRemote :=
  mkFake refs (fake_uuids w) (fake_listing w) (fake_head w).

Definition fake_generateUuid (w : FakeRemote) : FakeRemote * string :=
  match fake_uuids w with
  | [] => (w, "00000000-0000-4000-8000-000000000000")
  | u :: us => (mkFake (fake_refs w) us (fake_listing w) (fake_head w), u)
  end.

Definition fake_octokit : Octokit FakeRemote := {|
  git_getRef _ ref _ w :=
    (w, match fake_refs w !! ("refs/" +:+ ref) with
        | Some s => Normal s
        | None => Throw RefNotFoundError
        end);
  git_updateRef _ _ ref _ s w :=
    match fake_refs w !! ("refs/" +:+ ref) with
    | Some _ => (fake_with_refs w (<["refs/" +:+ ref := s]> (fake_refs w)), Normal ())
    | None => (w, Throw RefNotFoundError)
    end;
  git_deleteRef _ ref _ w :=
    match fake_refs w !! ("refs/" +:+ ref) with
    | Some _ => (fake_with_refs w (delete ("refs/" +:+ ref) (fake_refs w)), Normal ())
    | None => (w, Throw RefNotFoundError)
    end;
  git_createRef _ ref _ s w :=
    match fake_refs w !! ref with
    | Some _ => (w, Throw RefAlreadyExistsError)
    | None => (fake_with_refs w (<[ref := s]> (fake_refs w)), Normal ())
    end;
  paginate_pulls_listCommits _ _ _ w := (w, Normal (fake_listing w));
  pulls_get _ _ _ w := (w, Normal (fake_head w))
|}.

Definition fake_start : FakeRemote :=
  mkFake ∅ ["1b9d6bcd-bbfd-4b2d-9b5d-ab8dfbbd4bed"] [commitC; commitA; commitB] "C".

Definition fake_name : Ref := "foo-1b9d6bcd-bbfd-4b2d-9b5d-ab8dfbbd4bed".

Definition ActionError : Exn := Rejection "Err".

(** An action that throws. *)
Definition failing_action (_ : Ref) : Async FakeRemote nat := reject ActionError.

(** An action that removes the ref it was given and then throws. *)
Definition deleting_action (ref : Ref) : Async FakeRemote nat :=
  _ <- deleteRef fake_octokit "owner" ref "repo" ;; reject ActionError.

(** An action that returns the name it was given. *)
Definition echo_action (ref : Ref) : Async FakeRemote Ref := resolve ref.

Definition run_fake {T} (action : Ref -> Async FakeRemote T) : Run FakeRemote T :=
  withTemporaryRef fake_generateUuid fake_octokit action "owner" "foo" "repo" "abc123"
    fake_start.

Definition fake_created : Run FakeRemote (Async FakeRemote unit * Ref) :=
  createTemporaryRef fake_generateUuid fake_octokit "owner" "foo" "repo" "abc123"
    fake_start.

(** ** Further vocabulary *)

(** The completion of a computation whose result, if any, goes through [f]. *)
Definition map_completion {A B} (f : A -> B) (c : Completion A) : Completion B :=
  let* a := c in Normal (f a).

(** An entry reduced to what a linear history needs: its first parent only. *)
Definition first_parent_only (c : PullsListCommitsResponseItem)
  : PullsListCommitsResponseItem :=
  mkItem (sha c) (take 1 (parents c)) (commit c).

(** A merge commit: a second parent besides [B]. *)
Definition mergeC := item "C" ["B"; "M"].

(** ** [fetchCommits] of [git.js]: the paginated listing *)

Module GitJs.
Section Pagination.
Context {W R : Type}.

(** [response.data], [octokit.pullRequests.getCommits],
    [octokit.hasNextPage] and [octokit.getNextPage], for responses of an
    arbitrary type [R]. *)
Variable data : R -> list PullsListCommitsResponseItem.
Variable getCommits :
  PullRequestNumber -> RepoOwner -> RepoName -> W -> W * Completion R.
Variable hasNextPage : R -> bool.
Variable getNextPage : R -> W -> W * Completion R.

Definition getCommitShas (response : R) : list Sha :=
  map sha (data response).

(** [while (octokit.hasNextPage(response)) {
       response = await octokit.getNextPage(response);
       commits.push(...getCommitShas(response));
     }
     return commits;]
    The number of pages has no bound in the source; [fuel] bounds the rounds
    run here and [Diverge] is the answer when it does not suffice. *)
Fixpoint next_pages (fuel : nat) (response : R) (commits : list Sha) (w : W)
  : W * Completion (list Sha) :=
  match fuel with
  | 0 => (w, Diverge)
  | S fuel' =>
    if hasNextPage response then
      match getNextPage response w with
      | (w', Normal response') =>
        next_pages fuel' response' (commits ++ getCommitShas response') w'
      | (w', Throw e) => (w', Throw e)
      | (w', Diverge) => (w', Diverge)
      end
    else (w, Normal commits)
  end.

Definition fetchCommits (fuel : nat) (number : PullRequestNumber)
    (owner : RepoOwner) (repo : RepoName) (w : W) : W * Completion (list Sha) :=
  match getCommits number owner repo w with
  | (w', Normal response) => next_pages fuel response (getCommitShas response) w'
  | (w', Throw e) => (w', Throw e)
  | (w', Diverge) => (w', Diverge)
  end.

(** From world [w] and response [r], the remote serves the further pages
    [rest], one [getNextPage] each, and leaves world [w'] when the last page
    reports no next page. *)
Inductive serves : W -> R -> list R -> W -> Prop :=
| serves_last w r : hasNextPage r = false -> serves w r [] w
| serves_next w r w1 r1 rest w' :
    hasNextPage r = true ->
    getNextPage r w = (w1, Normal r1) ->
    serves w1 r1 rest w' ->
    serves w r (r1 :: rest) w'.

(** The remote serves the further pages [read] and then refuses the next
    request with [e], leaving world [w']. *)
Inductive fails_after : W -> R -> list R -> Exn -> W -> Prop :=
| fails_now w r e w' :
    hasNextPage r = true ->
    getNextPage r w = (w', Throw e) ->
    fails_after w r [] e w'
| fails_later w r w1 r1 read e w' :
    hasNextPage r = true ->
    getNextPage r w = (w1, Normal r1) ->
    fails_after w1 r1 read e w' ->
    fails_after w r (r1 :: read) e w'.
End Pagination.
End GitJs.

(** A paged fake remote: a response is the list of pages still to come, the
    current one first; the world counts the requests answered and the
    [broken] request, if any, is refused. *)
Definition paged_data (r : list (list PullsListCommitsResponseItem))
  : list PullsListCommitsResponseItem :=
  match r with
  | [] => []
  | page :: _ => page
  end.

Definition paged_hasNextPage (r : list (list PullsListCommitsResponseItem)) : bool :=
  match r with
  | _ :: _ :: _ => true
  | _ => false
  end.

Definition paged_getNextPage (broken : option nat)
    (r : list (list PullsListCommitsResponseItem)) (w : nat)
  : nat * Completion (list (list PullsListCommitsResponseItem)) :=
  if decide (broken = Some w) then (S w, Throw (Rejection "HttpError"))
  else (S w, Normal (tail r)).

Definition paged_getCommits (pages : list (list PullsListCommitsResponseItem))
    (_ : PullRequestNumber) (_ : RepoOwner) (_ : RepoName) (w : nat)
  : nat * Completion (list (list PullsListCommitsResponseItem)) :=
  (S w, Normal pages).

Definition sample_pages : list (list PullsListCommitsResponseItem) :=
  [[commitA; commitB]; [commitC]; [strayD]].

(** Variants of the fake remote: one whose commit listing is refused, one
    whose pull request lookup is refused, a world whose pull request starts at
    a root commit, and a world in which the temporary name is taken. *)
Definition HttpError : Exn := Rejection "HttpError".

Definition unlisted_octokit : Octokit FakeRemote :=
  mkOctokit FakeRemote
    (git_getRef fake_octokit) (git_updateRef fake_octokit)
    (git_deleteRef fake_octokit) (git_createRef fake_octokit)
    (fun _ _ _ w => (w, Throw HttpError))
    (pulls_get fake_octokit).

Definition pullless_octokit : Octokit FakeRemote :=
  mkOctokit FakeRemote
    (git_getRef fake_octokit) (git_updateRef fake_octokit)
    (git_deleteRef fake_octokit) (git_createRef fake_octokit)
    (paginate_pulls_listCommits fake_octokit)
    (fun _ _ _ w => (w, Throw HttpError)).

Definition fake_rooted : FakeRemote :=
  mkFake ∅ ["1b9d6bcd-bbfd-4b2d-9b5d-ab8dfbbd4bed"] [commitC; rootA; commitB] "C".

Definition fake_taken : FakeRemote :=
  fake_with_refs fake_start {[ "refs/heads/" +:+ fake_name := "def456" ]}.

(** An action whose promise never settles. *)
Definition pending_action (_ : Ref) : Async FakeRemote nat := settle Diverge.

Ltac by_evaluation := apply (bool_decide_unpack _); vm_compute; exact I.

(** ** Array primitives: lengths and contents *)

Section Splice.
Context {A : Type}.
Implicit Types (l a b : list A) (x : A).

Lemma splice_remove_middle a x b :
  splice_remove (length a) (a ++ x :: b) = a ++ b.
Proof.
  unfold splice_remove.
  rewrite take_app_length.
  replace (S (length a)) with (length (a ++ [x])) by (rewrite length_app; simpl; lia).
  replace (a ++ x :: b) with ((a ++ [x]) ++ b) by (rewrite <- app_assoc; done).
  by rewrite drop_app_length.
Qed.

Lemma splice_insert_middle a x b :
  splice_insert (length a) x (a ++ b) = a ++ x :: b.
Proof.
  unfold splice_insert. by rewrite take_app_length, drop_app_length.
Qed.

Lemma splice_insert_clamped k x l :
  length l <= k -> splice_insert k x l = l ++ [x].
Proof.
  intros Hk. unfold splice_insert.
  by rewrite take_ge, drop_ge by lia.
Qed.

Lemma splice_insert_perm k x l : splice_insert k x l ≡ₚ x :: l.
Proof.
  unfold splice_insert.
  rewrite <- Permutation_middle. by rewrite take_drop.
Qed.

Lemma move_to_perm i k x l : l !! i = Some x -> move_to i k x l ≡ₚ l.
Proof.
  intros Hi. unfold move_to. rewrite splice_insert_perm.
  unfold splice_remove.
  rewrite Permutation_middle. by rewrite take_drop_middle.
Qed.

Lemma length_move_to i k x l :
  l !! i = Some x -> length (move_to i k x l) = length l.
Proof. intros Hi. by rewrite (move_to_perm i k x l Hi). Qed.
End Splice.

(** ** General facts about the loops *)

(** Inside the loop guard every index read is in range. *)
Lemma lookup_in_range commits i :
  i < length commits -> exists ci, commits !! i = Some ci.
Proof. intros Hi. by apply lookup_lt_is_Some_2. Qed.

(** The loops only ever move entries around. *)
Lemma head_loop_perm fuel : forall i headSha commits commits',
  head_loop fuel i headSha commits = Normal commits' -> commits' ≡ₚ commits.
Proof.
  induction fuel as [|fuel IH]; intros i h l l' Hrun; simpl in Hrun; [done|].
  destruct (decide (i < length l)); [|by inversion Hrun].
  destruct (l !! i) as [ci|] eqn:Hi; [|done].
  destruct (decide (sha ci = h)).
  - rewrite (IH _ _ _ _ Hrun). by apply move_to_perm.
  - by apply (IH _ _ _ _ Hrun).
Qed.

Lemma inner_loop_perm fuel : forall j i commits commits',
  inner_loop fuel j i commits = Normal commits' -> commits' ≡ₚ commits.
Proof.
  induction fuel as [|fuel IH]; intros j i l l' Hrun; simpl in Hrun; [done|].
  destruct (decide (i < length l)); [|by inversion Hrun].
  destruct (l !! i) as [ci|] eqn:Hi; [|done].
  destruct (l !! j) as [cj|]; [|done].
  destruct (parents cj !! 0) as [p|]; [|done].
  destruct (decide (sha ci = p)).
  - rewrite (IH _ _ _ _ Hrun). by apply move_to_perm.
  - by apply (IH _ _ _ _ Hrun).
Qed.

Lemma outer_loop_perm fuel : forall j commits commits',
  outer_loop fuel j commits = Normal commits' -> commits' ≡ₚ commits.
Proof.
  induction fuel as [|fuel IH]; intros j l l' Hrun; cbn [outer_loop] in Hrun; [done|].
  destruct (decide (j < length l)); [|by inversion Hrun].
  destruct (inner_loop _ j 0 l) as [l1| |] eqn:Hin; cbn [and_then] in Hrun; try done.
  rewrite (IH _ _ _ Hrun). by apply (inner_loop_perm _ _ _ _ _ Hin).
Qed.

(** With a budget above the number of indices left, a loop leaves through its
    guard; the only abrupt exit is the [TypeError] of the inner loop. *)
Lemma head_loop_total fuel : forall i headSha commits,
  length commits - i < fuel ->
  exists commits', head_loop fuel i headSha commits = Normal commits'.
Proof.
  induction fuel as [|fuel IH]; intros i h l Hfuel; [lia|]. simpl.
  destruct (decide (i < length l)) as [Hlt|]; [|by eexists].
  destruct (lookup_in_range l i Hlt) as [ci Hi]. rewrite Hi.
  destruct (decide (sha ci = h)).
  - apply IH. rewrite (length_move_to _ _ _ _ Hi). lia.
  - apply IH. lia.
Qed.

Lemma inner_loop_total fuel : forall j i commits,
  length commits - i < fuel ->
  (exists commits', inner_loop fuel j i commits = Normal commits')
  \/ inner_loop fuel j i commits = Throw TypeError.
Proof.
  induction fuel as [|fuel IH]; intros j i l Hfuel; [lia|]. simpl.
  destruct (decide (i < length l)) as [Hlt|]; [|left; by eexists].
  destruct (lookup_in_range l i Hlt) as [ci Hi]. rewrite Hi.
  destruct (l !! j) as [cj|]; [|by right].
  destruct (parents cj !! 0) as [p|]; [|by right].
  destruct (decide (sha ci = p)).
  - apply IH. rewrite (length_move_to _ _ _ _ Hi). lia.
  - apply IH. lia.
Qed.

Lemma outer_loop_total fuel : forall j commits,
  length commits - j < fuel ->
  (exists commits', outer_loop fuel j commits = Normal commits')
  \/ outer_loop fuel j commits = Throw TypeError.
Proof.
  induction fuel as [|fuel IH]; intros j l Hfuel; [lia|]. cbn [outer_loop].
  destruct (decide (j < length l)) as [Hlt|]; [|left; by eexists].
  destruct (inner_loop_total (S (length l)) j 0 l) as [[l1 Hin]|Hin]; [lia| |].
  - rewrite Hin. cbn [and_then]. apply IH.
    rewrite (inner_loop_perm _ _ _ _ _ Hin). lia.
  - rewrite Hin. by right.
Qed.

(** The reordering always finishes: with a reordered listing or with the
    [TypeError] of a missing first parent. *)
Lemma linearize_total commits headSha :
  (exists chain, linearize commits headSha = Normal chain /\ chain ≡ₚ commits)
  \/ linearize commits headSha = Throw TypeError.
Proof.
  unfold linearize.
  destruct (head_loop_total (S (length commits)) 0 headSha commits) as [c1 H1]; [lia|].
  rewrite H1. cbn [and_then].
  destruct (outer_loop_total (S (length c1)) 0 c1) as [[c2 H2]|H2]; [lia| |].
  - rewrite H2. cbn [and_then]. left. eexists; split; [done|].
    rewrite reverse_Permutation, (outer_loop_perm _ _ _ _ H2).
    by apply (head_loop_perm _ _ _ _ _ H1).
  - rewrite H2. by right.
Qed.

Lemma linearize_perm commits headSha chain :
  linearize commits headSha = Normal chain -> chain ≡ₚ commits.
Proof.
  intros Hrun.
  destruct (linearize_total commits headSha) as [(chain' & Hrun' & Hperm)|Hrun'];
    congruence.
Qed.

(** ** Entries without a first parent *)

Section MoveIndices.
Context {A : Type}.
Implicit Types (l : list A) (x : A).

(** Moving an entry from index [i] to an index [k <= i] leaves the first [k]
    entries alone. *)
Lemma move_to_take_below i k x l :
  l !! i = Some x -> k <= i -> take k (move_to i k x l) = take k l.
Proof.
  intros Hi Hk.
  apply list_elem_of_split_length in Hi as (a & b & -> & ->).
  unfold move_to. rewrite splice_remove_middle. unfold splice_insert.
  rewrite (take_app_le (take k (a ++ b)))
    by (rewrite length_take, length_app; lia).
  rewrite take_take, Nat.min_id.
  by rewrite !take_app_le by lia.
Qed.

(** Moving an entry from an index [i <= j] to just after index [j] pulls the
    entries in between one place down: what then sits before index [j] sat
    before index [j + 1]. *)
Lemma move_to_take_above (P : A -> Prop) i j x l :
  l !! i = Some x -> i <= j -> j < length l ->
  Forall P (take (S j) l) -> Forall P (take j (move_to i (S j) x l)).
Proof.
  intros Hi Hij Hj.
  apply list_elem_of_split_length in Hi as (a & b & -> & ->).
  rewrite length_app in Hj. simpl in Hj.
  unfold move_to. rewrite splice_remove_middle. unfold splice_insert.
  rewrite (take_app_le (take (S j) (a ++ b)))
    by (rewrite length_take, length_app; lia).
  rewrite take_take, Nat.min_l by lia.
  rewrite !take_app_ge by lia.
  replace (S j - length a) with (S (j - length a)) by lia. simpl.
  rewrite !Forall_app, Forall_cons. tauto.
Qed.
End MoveIndices.

(** While the inner loop runs for index [j], every entry that comes to sit at
    an index up to [j] has had its first parent read. *)
Lemma inner_loop_checked fuel : forall j i commits commits',
  inner_loop fuel j i commits = Normal commits' ->
  j < length commits ->
  Forall has_first_parent (take j commits) ->
  (i < length commits
   \/ exists cj, commits !! j = Some cj /\ has_first_parent cj) ->
  Forall has_first_parent (take (S j) commits').
Proof.
  induction fuel as [|fuel IH]; intros j i l l' Hrun Hj Hpre Hcur;
    cbn [inner_loop] in Hrun; [done|].
  destruct (decide (i < length l)) as [Hlt|Hge].
  - destruct (l !! i) as [ci|] eqn:Hi; [|done].
    destruct (l !! j) as [cj|] eqn:Hcj; [|done].
    destruct (parents cj !! 0) as [p|] eqn:Hp; [|done].
    assert (Hgood : has_first_parent cj) by (unfold has_first_parent, first_parent; by rewrite Hp).
    assert (Hupto : Forall has_first_parent (take (S j) l)).
    { rewrite (take_S_r _ _ _ Hcj), Forall_app, Forall_singleton. done. }
    destruct (decide (sha ci = p)) as [_|_].
    + apply (IH _ _ _ _ Hrun).
      * by rewrite (length_move_to _ _ _ _ Hi).
      * destruct (decide (i <= j)) as [Hij|Hij].
        -- by apply move_to_take_above.
        -- assert (Heq : take (S j) (move_to i (S j) ci l) = take (S j) l)
             by (apply move_to_take_below; [done|lia]).
           apply (f_equal (take j)) in Heq.
           rewrite !take_take, !Nat.min_l in Heq by lia. by rewrite Heq.
      * rewrite (length_move_to _ _ _ _ Hi).
        destruct (decide (S i < length l)) as [|Hlast]; [by left|right].
        destruct (decide (i <= j)) as [Hij|Hij].
        -- assert (i = j) as -> by lia.
           assert (ci = cj) as -> by congruence.
           exists cj. split; [|done].
           apply list_elem_of_split_length in Hi as (a & b & -> & ->).
           rewrite length_app in Hlast. simpl in Hlast.
           destruct b; [|simpl in Hlast; lia].
           unfold move_to. rewrite splice_remove_middle, app_nil_r.
           rewrite splice_insert_clamped by lia.
           by rewrite lookup_app_r, Nat.sub_diag.
        -- exists cj. split; [|done].
           assert (Heq : take (S j) (move_to i (S j) ci l) = take (S j) l)
             by (apply move_to_take_below; [done|lia]).
           rewrite <- (lookup_take_lt (move_to i (S j) ci l) (S j) j) by lia.
           rewrite Heq. by rewrite lookup_take_lt by lia.
    + apply (IH _ _ _ _ Hrun); [done|done|].
      right. by exists cj.
  - inversion Hrun; subst l'.
    destruct Hcur as [|(cj & Hcj & Hgood)]; [done|].
    rewrite (take_S_r _ _ _ Hcj), Forall_app, Forall_singleton. done.
Qed.

Lemma outer_loop_checked fuel : forall j commits commits',
  outer_loop fuel j commits = Normal commits' ->
  Forall has_first_parent (take j commits) ->
  Forall has_first_parent commits.
Proof.
  induction fuel as [|fuel IH]; intros j l l' Hrun Hpre;
    cbn [outer_loop] in Hrun; [done|].
  destruct (decide (j < length l)) as [Hlt|Hge].
  - destruct (inner_loop _ j 0 l) as [l1| |] eqn:Hin; cbn [and_then] in Hrun; try done.
    rewrite <- (inner_loop_perm _ _ _ _ _ Hin).
    apply (IH _ _ _ Hrun).
    apply (inner_loop_checked _ _ _ _ _ Hin); [done|done|]. left. lia.
  - by rewrite take_ge in Hpre by lia.
Qed.

(** A reordering that returns has read a first parent off every entry. *)
Lemma linearize_reads_every_parent commits headSha chain :
  linearize commits headSha = Normal chain ->
  Forall has_first_parent commits.
Proof.
  unfold linearize. intros Hrun.
  destruct (head_loop _ 0 headSha commits) as [c1| |] eqn:H1;
    cbn [and_then] in Hrun; try done.
  destruct (outer_loop _ 0 c1) as [c2| |] eqn:H2; cbn [and_then] in Hrun; try done.
  rewrite <- (head_loop_perm _ _ _ _ _ H1).
  apply (outer_loop_checked _ _ _ _ H2). by rewrite take_0.
Qed.

(** ** Loops on a listing with a single entry to move *)

(** Entries after a moved one keep their index when it moves towards the
    front. *)
Lemma move_to_drop_after {A} i k (x : A) (l : list A) :
  l !! i = Some x -> k <= i -> drop (S i) (move_to i k x l) = drop (S i) l.
Proof.
  intros Hi Hk.
  apply list_elem_of_split_length in Hi as (a & b & -> & ->).
  unfold move_to. rewrite splice_remove_middle. unfold splice_insert.
  rewrite (take_app_le a b k), (drop_app_le a b k) by lia.
  replace (take k a ++ x :: drop k a ++ b)
    with ((take k a ++ x :: drop k a) ++ b) by (by rewrite <- app_assoc).
  rewrite drop_app_length'
    by (rewrite length_app; simpl; rewrite length_take, length_drop; lia).
  replace (a ++ x :: b) with ((a ++ [x]) ++ b) by (by rewrite <- app_assoc).
  by rewrite drop_app_length' by (rewrite length_app; simpl; lia).
Qed.

Lemma move_to_lookup_after {A} i k m (x : A) (l : list A) :
  l !! i = Some x -> k <= i -> i < m -> move_to i k x l !! m = l !! m.
Proof.
  intros Hi Hk Hm.
  pose proof (move_to_drop_after i k x l Hi Hk) as Hdrop.
  apply (f_equal (fun d => d !! (m - S i))) in Hdrop.
  rewrite !lookup_drop in Hdrop.
  by replace (S i + (m - S i)) with m in Hdrop by lia.
Qed.

Lemma move_to_lookup_before {A} i k m (x : A) (l : list A) :
  l !! i = Some x -> k <= i -> m < k -> move_to i k x l !! m = l !! m.
Proof.
  intros Hi Hk Hm.
  pose proof (move_to_take_below i k x l Hi Hk) as Htake.
  apply (f_equal (fun d => d !! m)) in Htake.
  by rewrite !lookup_take_lt in Htake by lia.
Qed.

(** No entry from index [i] on has the sha looked for: the loop changes
    nothing. *)
Lemma head_loop_no_match fuel : forall i headSha commits,
  length commits - i < fuel ->
  (forall k c, i <= k -> commits !! k = Some c -> sha c <> headSha) ->
  head_loop fuel i headSha commits = Normal commits.
Proof.
  induction fuel as [|fuel IH]; intros i h l Hfuel Hno; [lia|]. cbn [head_loop].
  destruct (decide (i < length l)) as [Hlt|]; [|done].
  destruct (lookup_in_range l i Hlt) as [ci Hi]. rewrite Hi.
  destruct (decide (sha ci = h)) as [Heq|_].
  - by destruct (Hno i ci).
  - apply IH; [lia|]. intros k c Hk. apply Hno. lia.
Qed.

Lemma inner_loop_no_match fuel : forall j i commits cj p,
  length commits - i < fuel ->
  commits !! j = Some cj -> first_parent cj = Some p ->
  (forall k c, i <= k -> commits !! k = Some c -> sha c <> p) ->
  inner_loop fuel j i commits = Normal commits.
Proof.
  induction fuel as [|fuel IH]; intros j i l cj p Hfuel Hj Hp Hno; [lia|].
  cbn [inner_loop].
  destruct (decide (i < length l)) as [Hlt|]; [|done].
  destruct (lookup_in_range l i Hlt) as [ci Hi]. rewrite Hi, Hj.
  unfold first_parent in Hp. rewrite Hp.
  destruct (decide (sha ci = p)) as [Heq|_].
  - by destruct (Hno i ci).
  - apply (IH _ _ _ cj p); [lia|done|done|].
    intros k c Hk. apply Hno. lia.
Qed.

(** Exactly one entry from index [i] on, at index [i0], has the sha looked
    for: it is moved and nothing else happens. *)
Lemma head_loop_one_match fuel : forall i i0 headSha commits y,
  length commits - i < fuel ->
  commits !! i0 = Some y -> sha y = headSha -> i <= i0 ->
  (forall k c, i <= k -> k <> i0 -> commits !! k = Some c -> sha c <> headSha) ->
  head_loop fuel i headSha commits = Normal (move_to i0 0 y commits).
Proof.
  induction fuel as [|fuel IH]; intros i i0 h l y Hfuel Hi0 Hy Hle Hno; [lia|].
  cbn [head_loop].
  assert (Hlt : i < length l) by (apply lookup_lt_Some in Hi0; lia).
  destruct (decide (i < length l)); [|done].
  destruct (lookup_in_range l i Hlt) as [ci Hi]. rewrite Hi.
  destruct (decide (i = i0)) as [->|Hne].
  - assert (ci = y) as -> by congruence.
    destruct (decide (sha y = h)); [|done].
    apply head_loop_no_match.
    + rewrite (length_move_to _ _ _ _ Hi0). lia.
    + intros k c Hk. rewrite move_to_lookup_after by (done || lia).
      apply Hno; lia.
  - destruct (decide (sha ci = h)) as [Heq|_].
    + by destruct (Hno i ci).
    + apply IH; [lia|done|done|lia|].
      intros k c Hk. apply Hno. lia.
Qed.

Lemma inner_loop_one_match fuel : forall j i i0 commits cj p y,
  length commits - i < fuel ->
  commits !! j = Some cj -> first_parent cj = Some p ->
  commits !! i0 = Some y -> sha y = p -> j < i0 -> i <= i0 ->
  (forall k c, i <= k -> k <> i0 -> commits !! k = Some c -> sha c <> p) ->
  inner_loop fuel j i commits = Normal (move_to i0 (S j) y commits).
Proof.
  induction fuel as [|fuel IH]; intros j i i0 l cj p y Hfuel Hj Hp Hi0 Hy Hji Hle Hno;
    [lia|].
  cbn [inner_loop].
  assert (Hlt : i < length l) by (apply lookup_lt_Some in Hi0; lia).
  destruct (decide (i < length l)); [|done].
  destruct (lookup_in_range l i Hlt) as [ci Hi]. rewrite Hi, Hj.
  pose proof Hp as Hp'. unfold first_parent in Hp'. rewrite Hp'.
  destruct (decide (i = i0)) as [->|Hne].
  - assert (ci = y) as -> by congruence.
    destruct (decide (sha y = p)); [|done].
    apply (inner_loop_no_match _ _ _ _ cj p).
    + rewrite (length_move_to _ _ _ _ Hi0). lia.
    + rewrite move_to_lookup_before by (done || lia). done.
    + done.
    + intros k c Hk. rewrite move_to_lookup_after by (done || lia).
      apply Hno; lia.
  - destruct (decide (sha ci = p)) as [Heq|_].
    + by destruct (Hno i ci).
    + apply (IH _ _ _ _ cj p); [lia|done|done|done|done|done|lia|].
      intros k c Hk. apply Hno. lia.
Qed.

(** ** Linear chains *)

Lemma descending_tail x walk : descending (x :: walk) -> descending walk.
Proof. intros Hd i c d Hc Hd'. by apply (Hd (S i)). Qed.

Lemma consecutive_reverse chain : consecutive chain -> descending (reverse chain).
Proof.
  intros Hc i c d Hi HSi.
  assert (Hlen : S i < length chain).
  { apply lookup_lt_Some in HSi. by rewrite length_reverse in HSi. }
  rewrite reverse_lookup in Hi, HSi by lia.
  apply (Hc (length chain - S (S i))); [done|].
  by replace (S (length chain - S (S i))) with (length chain - S i) by lia.
Qed.

Lemma unique_sha_lookup commits k i0 c y :
  NoDup (sha <$> commits) ->
  commits !! k = Some c -> commits !! i0 = Some y -> sha c = sha y -> k = i0.
Proof.
  intros Hnd Hk Hi0 Heq.
  apply (NoDup_lookup _ k i0 (sha y) Hnd); rewrite list_lookup_fmap.
  - by rewrite Hk, <- Heq.
  - by rewrite Hi0.
Qed.

(** The second loop nest on a listing whose first [length pre + 1] entries
    are already in walk order and whose remaining entries are exactly the rest
    of the walk, in any order: every round moves the next entry of the walk
    into place. *)
Lemma outer_loop_walk : forall older pre x rest fuel r p,
  S (length rest) < fuel ->
  descending (x :: older) ->
  last (x :: older) = Some r -> first_parent r = Some p ->
  p ∉ sha <$> (pre ++ x :: rest) ->
  rest ≡ₚ older ->
  NoDup (sha <$> (pre ++ x :: rest)) ->
  outer_loop fuel (length pre) (pre ++ x :: rest) = Normal (pre ++ x :: older).
Proof.
  induction older as [|y older IH];
    intros pre x rest fuel r p Hfuel Hdesc Hlast Hp Hout Hperm Hnd.
  - apply Permutation_nil_r in Hperm as ->. simpl in Hlast.
    assert (r = x) as -> by congruence.
    destruct fuel as [|[|fuel]]; [simpl in Hfuel; lia..|].
    cbn [outer_loop].
    destruct (decide (length pre < length (pre ++ [x]))) as [_|Hn];
      [|rewrite length_app in Hn; simpl in Hn; lia].
    rewrite (inner_loop_no_match _ _ _ _ x p); [| lia | | done |].
    + cbn [and_then].
      destruct (decide (S (length pre) < length (pre ++ [x]))) as [Hn|_]; [|done].
      rewrite length_app in Hn; simpl in Hn; lia.
    + by rewrite lookup_app_r, Nat.sub_diag.
    + intros k c _ Hk Heq. apply Hout.
      rewrite <- Heq. apply list_elem_of_fmap_2. by eapply list_elem_of_lookup_2.
  - assert (Hxy : first_parent x = Some (sha y)) by (by apply (Hdesc 0)).
    assert (Hy : y ∈ rest) by (rewrite Hperm; left).
    apply list_elem_of_split in Hy as (r1 & r2 & ->).
    destruct fuel as [|fuel]; [lia|]. cbn [outer_loop].
    set (l := pre ++ x :: r1 ++ y :: r2) in *.
    assert (Hlen : length l = length pre + S (length r1 + S (length r2))).
    { unfold l. rewrite length_app. simpl. rewrite length_app. simpl. lia. }
    assert (Hj : l !! length pre = Some x).
    { unfold l. by rewrite lookup_app_r, Nat.sub_diag. }
    assert (Hi0 : l !! length (pre ++ x :: r1) = Some y).
    { unfold l. replace (pre ++ x :: r1 ++ y :: r2) with ((pre ++ x :: r1) ++ y :: r2)
        by (by rewrite <- app_assoc).
      by rewrite lookup_app_r, Nat.sub_diag. }
    destruct (decide (length pre < length l)) as [_|Hn]; [|lia].
    rewrite (inner_loop_one_match _ _ _ (length (pre ++ x :: r1)) _ x (sha y) y);
      [| lia | done | done | done | done | rewrite length_app; simpl; lia | lia |].
    + cbn [and_then].
      assert (Hmoved : move_to (length (pre ++ x :: r1)) (S (length pre)) y l
                       = (pre ++ [x]) ++ y :: r1 ++ r2).
      { unfold move_to, l.
        replace (pre ++ x :: r1 ++ y :: r2) with ((pre ++ x :: r1) ++ y :: r2)
          by (by rewrite <- app_assoc).
        rewrite splice_remove_middle.
        replace ((pre ++ x :: r1) ++ r2) with ((pre ++ [x]) ++ r1 ++ r2)
          by (by rewrite <- !app_assoc).
        replace (S (length pre)) with (length (pre ++ [x]))
          by (rewrite length_app; simpl; lia).
        by rewrite splice_insert_middle. }
      rewrite Hmoved.
      assert (Hshuffle : (pre ++ [x]) ++ y :: r1 ++ r2 ≡ₚ l).
      { unfold l. rewrite <- !app_assoc. simpl.
        apply Permutation_app_head, perm_skip. apply Permutation_middle. }
      replace (S (length pre)) with (length (pre ++ [x]))
        by (rewrite length_app; simpl; lia).
      rewrite (IH (pre ++ [x]) y (r1 ++ r2) fuel r p).
      * by rewrite <- app_assoc.
      * rewrite length_app in *. simpl in *. lia.
      * by eapply descending_tail.
      * by rewrite <- Hlast.
      * done.
      * by rewrite Hshuffle.
      * apply (Permutation_cons_inv (a:=y)). by rewrite Permutation_middle.
      * by rewrite Hshuffle.
    + intros k c _ Hne Hk Heq. apply Hne.
      by apply (unique_sha_lookup l k _ c y).
Qed.

(** A listing that is, in some order, a linear chain ending at [headSha], with
    a first parent on every entry, is returned in chain order. *)
Lemma linearize_chain commits chain headSha :
  commits ≡ₚ chain ->
  linear_chain chain headSha ->
  Forall has_first_parent chain ->
  linearize commits headSha = Normal chain.
Proof.
  intros Hperm [Hnd Hlink Hroot Hhead] Hparents.
  destruct (last chain) as [h|] eqn:Hlast; [|done].
  simpl in Hhead. assert (sha h = headSha) as Hh by congruence. clear Hhead.
  assert (Hrev : exists older, reverse chain = h :: older).
  { rewrite <- head_reverse in Hlast.
    destruct (reverse chain) as [|h' older]; [done|].
    simpl in Hlast. exists older. congruence. }
  destruct Hrev as [older Hrev].
  assert (Hin : h ∈ commits).
  { rewrite Hperm, <- (reverse_Permutation chain), Hrev. left. }
  apply list_elem_of_lookup_1 in Hin as [i0 Hi0].
  assert (Hnd' : NoDup (sha <$> commits)) by (by rewrite Hperm).
  unfold linearize.
  rewrite (head_loop_one_match _ 0 i0 headSha commits h); [|lia|done|done|lia|].
  2:{ intros k c _ Hne Hk Heq. apply Hne.
      apply (unique_sha_lookup commits k i0 c h); [done|done|done|congruence]. }
  cbn [and_then].
  assert (Hmoved : move_to i0 0 h commits = [] ++ h :: splice_remove i0 commits)
    by (unfold move_to, splice_insert; by rewrite take_0, drop_0).
  assert (Hrest : splice_remove i0 commits ≡ₚ older).
  { apply (Permutation_cons_inv (a:=h)).
    rewrite <- Hrev, reverse_Permutation, <- Hperm.
    rewrite <- (move_to_perm i0 0 h commits Hi0) at 2. by rewrite Hmoved. }
  assert (Hroot' : exists r p, last (h :: older) = Some r /\ first_parent r = Some p
                               /\ p ∉ sha <$> chain).
  { rewrite <- Hrev, last_reverse.
    destruct (head chain) as [r|] eqn:Hr.
    2:{ destruct chain; [by rewrite reverse_nil in Hrev|done]. }
    assert (Hrin : r ∈ chain) by (destruct chain; simplify_eq/=; left).
    rewrite Forall_forall in Hparents.
    destruct (Hparents r Hrin) as [p Hp].
    exists r, p. split; [done|]. split; [done|].
    intros Hp'. apply (Hroot r eq_refl). by exists p. }
  destruct Hroot' as (r & p & Hr & Hp & Hout).
  assert (Hall : [] ++ h :: splice_remove i0 commits ≡ₚ chain).
  { rewrite <- Hmoved. by rewrite (move_to_perm i0 0 h commits Hi0). }
  rewrite Hmoved.
  change (outer_loop (S (length ([] ++ h :: splice_remove i0 commits))) 0)
    with (outer_loop (S (length ([] ++ h :: splice_remove i0 commits)))
            (length (@nil PullsListCommitsResponseItem))).
  rewrite (outer_loop_walk older [] h (splice_remove i0 commits) _ r p).
  - cbn [and_then]. simpl. by rewrite <- Hrev, reverse_involutive.
  - simpl. lia.
  - rewrite <- Hrev. by apply consecutive_reverse.
  - done.
  - done.
  - by rewrite Hall.
  - done.
  - by rewrite Hall.
Qed.

Lemma descending_reverse walk : descending walk -> consecutive (reverse walk).
Proof.
  intros Hd i c d Hi HSi.
  assert (Hlen : S i < length walk).
  { apply lookup_lt_Some in HSi. by rewrite length_reverse in HSi. }
  rewrite reverse_lookup in Hi, HSi by lia.
  apply (Hd (length walk - S (S i))); [done|].
  by replace (S (length walk - S (S i))) with (length walk - S i) by lia.
Qed.

(** An entry without parents makes the reordering throw. *)
Lemma linearize_missing_parent commits headSha :
  ~ Forall has_first_parent commits ->
  linearize commits headSha = Throw TypeError.
Proof.
  intros Hbad.
  destruct (linearize_total commits headSha) as [(out & Hrun & _)|Hrun]; [|done].
  destruct Hbad. by apply (linearize_reads_every_parent _ _ _ Hrun).
Qed.

(** Without an entry for [headSha] the first loop changes nothing. *)
Lemma head_loop_absent commits headSha :
  (forall c, c ∈ commits -> sha c <> headSha) ->
  head_loop (S (length commits)) 0 headSha commits = Normal commits.
Proof.
  intros Hno. apply head_loop_no_match; [lia|].
  intros k c _ Hk. apply Hno. by eapply list_elem_of_lookup_2.
Qed.

Lemma sample_chain : linear_chain [commitA; commitB; commitC] "C".
Proof.
  split.
  - by_evaluation.
  - intros [|[|[|i]]] c d Hc Hd; by simplify_eq/=.
  - intros r [= <-] (p & [= <-] & Hin). revert Hin. vm_compute. 
    intros Hin. repeat (apply elem_of_cons in Hin as [Hin|Hin]; [done|]).
    by apply elem_of_nil in Hin.
  - done.
Qed.

Lemma rooted_chain : linear_chain [rootA; commitB; commitC] "C".
Proof.
  split.
  - by_evaluation.
  - intros [|[|[|i]]] c d Hc Hd; by simplify_eq/=.
  - by intros r [= <-] (p & Hp & _).
  - done.
Qed.

Lemma detached_reachable c :
  reachable [commitC; baseB; strayD] "C" c -> c = commitC \/ c = baseB.
Proof.
  induction 1 as [c Hin Hsha|d c _ IH Hin Hpar].
  - repeat (apply elem_of_cons in Hin as [->|Hin]); try done; [by left|].
    by apply elem_of_nil in Hin.
  - repeat (apply elem_of_cons in Hin as [->|Hin]);
      try (by apply elem_of_nil in Hin); destruct IH as [-> | ->]; try done; auto.
Qed.

(** C1, as stated, fails on the chain [A <- B <- C] whose root [A] has no
    parents: reading the first parent of [A] throws. *)
Lemma ordering_fails_on_parentless_root :
  forms_linear_chain [commitC; rootA; commitB] "C"
  /\ linearize [commitC; rootA; commitB] "C" = Throw TypeError
  /\ ~ exists out, linearize [commitC; rootA; commitB] "C" = Normal out.
Proof.
  split; [|split].
  - exists [rootA; commitB; commitC]. split; [by_evaluation|apply rooted_chain].
  - reflexivity.
  - by intros [out [=]].
Qed.

(** C1 (amended): a listing that forms a single connected linear chain of N
    commits ending at the head sha, every entry of which has a first parent
    (the root's lying outside the listing), is returned as a sequence of
    length N, oldest to newest, with [out[i+1].parents[0].sha = out[i].sha]
    for every [i] and [out[N-1].sha] the head sha. *)
Theorem ordering_correctness commits headSha :
  forms_linear_chain commits headSha ->
  Forall has_first_parent commits ->
  exists out,
    linearize commits headSha = Normal out
    /\ length out = length commits
    /\ consecutive out
    /\ sha <$> last out = Some headSha
    /\ out ≡ₚ commits.
Proof.
  intros (chain & Hperm & Hchain) Hparents.
  exists chain. split; [|split; [|split; [|split]]].
  - apply linearize_chain; [done|done|by rewrite <- Hperm].
  - by rewrite Hperm.
  - apply Hchain.
  - apply Hchain.
  - done.
Qed.

Lemma ordering_correctness_witness :
  forms_linear_chain [commitC; commitA; commitB] "C"
  /\ Forall has_first_parent [commitC; commitA; commitB]
  /\ exists out,
       linearize [commitC; commitA; commitB] "C" = Normal out
       /\ length out = length [commitC; commitA; commitB]
       /\ consecutive out
       /\ sha <$> last out = Some "C"
       /\ out ≡ₚ [commitC; commitA; commitB].
Proof.
  assert (Hchain : forms_linear_chain [commitC; commitA; commitB] "C").
  { exists [commitA; commitB; commitC]. split; [by_evaluation|apply sample_chain]. }
  assert (Hparents : Forall has_first_parent [commitC; commitA; commitB])
    by by_evaluation.
  split; [exact Hchain|]. split; [exact Hparents|].
  exact (ordering_correctness [commitC; commitA; commitB] "C" Hchain Hparents).
Defined.

(** C3, as stated, fails: with a head sha that no entry carries the
    reordering returns a sequence. *)
Lemma head_not_found_returns :
  (forall c, c ∈ [commitA; commitB] -> sha c <> "Z")
  /\ linearize [commitA; commitB] "Z" = Normal [commitA; commitB]
  /\ linearize [commitA; commitB] "Z" <> Throw HeadNotFoundError.
Proof.
  split; [|split; [reflexivity|done]].
  intros c Hin.
  repeat (apply elem_of_cons in Hin as [->|Hin]); try done.
  by apply elem_of_nil in Hin.
Qed.

(** C3 (amended): when no entry's sha equals the head sha, the reordering does
    not fail with [HeadNotFoundError]: the first loop leaves the listing as it
    is, the parent walk runs from the first listed entry on, and the call
    either returns a reordering of all the entries or throws the [TypeError]
    of an entry without parents. *)
Theorem head_not_found_is_not_reported commits headSha :
  (forall c, c ∈ commits -> sha c <> headSha) ->
  linearize commits headSha
    = (let* walked := outer_loop (S (length commits)) 0 commits in
       Normal (reverse walked))
  /\ linearize commits headSha <> Throw HeadNotFoundError
  /\ ((exists out, linearize commits headSha = Normal out /\ out ≡ₚ commits)
      \/ linearize commits headSha = Throw TypeError).
Proof.
  intros Habsent. split; [|split].
  - unfold linearize. by rewrite head_loop_absent.
  - destruct (linearize_total commits headSha) as [(out & -> & _)| ->]; done.
  - apply linearize_total.
Qed.

Lemma head_not_found_is_not_reported_witness :
  linearize [commitA; commitB] "Z"
    = (let* walked := outer_loop (S (length [commitA; commitB])) 0 [commitA; commitB] in
       Normal (reverse walked))
  /\ linearize [commitA; commitB] "Z" <> Throw HeadNotFoundError
  /\ ((exists out, linearize [commitA; commitB] "Z" = Normal out
                   /\ out ≡ₚ [commitA; commitB])
      \/ linearize [commitA; commitB] "Z" = Throw TypeError).
Proof.
  apply (head_not_found_is_not_reported [commitA; commitB] "Z").
  intros c Hin.
  assert (Hsha : sha c ∈ sha <$> [commitA; commitB]) by (by apply list_elem_of_fmap_2).
  intros Heq. rewrite Heq in Hsha. revert Hsha. by_evaluation.
Defined.

(** C4, as stated, fails: [D] cannot be reached from the head [C], yet it is
    returned, and three entries come back although only two are reachable. *)
Lemma unreachable_entry_is_returned :
  strayD ∈ [commitC; baseB; strayD]
  /\ ~ reachable [commitC; baseB; strayD] "C" strayD
  /\ (forall c, reachable [commitC; baseB; strayD] "C" c -> c = commitC \/ c = baseB)
  /\ linearize [commitC; baseB; strayD] "C" = Normal [strayD; baseB; commitC]
  /\ strayD ∈ [strayD; baseB; commitC]
  /\ length [strayD; baseB; commitC] = 3.
Proof.
  split; [by_evaluation|]. split.
  { intros Hr. by destruct (detached_reachable _ Hr). }
  split; [apply detached_reachable|].
  split; [reflexivity|]. split; [by_evaluation|reflexivity].
Qed.

(** C4 (amended): when the reordering returns, the entries that cannot be
    reached from the head sha through first-parent links are still part of
    the returned sequence, and its length is the length of the input. *)
Theorem unreachable_entries_are_kept commits headSha out :
  linearize commits headSha = Normal out ->
  (forall c, c ∈ commits -> ~ reachable commits headSha c -> c ∈ out)
  /\ length out = length commits.
Proof.
  intros Hrun. pose proof (linearize_perm _ _ _ Hrun) as Hperm. split.
  - intros c Hin _. by rewrite Hperm.
  - by rewrite Hperm.
Qed.

Lemma unreachable_entries_are_kept_witness :
  linearize [commitC; baseB; strayD] "C" = Normal [strayD; baseB; commitC]
  /\ strayD ∈ [commitC; baseB; strayD]
  /\ ~ reachable [commitC; baseB; strayD] "C" strayD
  /\ strayD ∈ [strayD; baseB; commitC]
  /\ length [strayD; baseB; commitC] = length [commitC; baseB; strayD].
Proof.
  assert (Hin : strayD ∈ [commitC; baseB; strayD]) by by_evaluation.
  assert (Hstray : ~ reachable [commitC; baseB; strayD] "C" strayD).
  { intros Hr. by destruct (detached_reachable _ Hr). }
  destruct (unreachable_entries_are_kept [commitC; baseB; strayD] "C"
              [strayD; baseB; commitC] eq_refl) as [Hkept Hlength].
  split; [reflexivity|]. split; [exact Hin|]. split; [exact Hstray|].
  split; [exact (Hkept strayD Hin Hstray)|exact Hlength].
Defined.

(** C6, as stated, fails: two orders of the same listing, with entries off
    the head's lineage, come back differently. *)
Lemma order_dependence :
  [commitA; strayE; strayD] ≡ₚ [commitA; strayD; strayE]
  /\ linearize [commitA; strayD; strayE] "A" = Normal [strayE; strayD; commitA]
  /\ linearize [commitA; strayE; strayD] "A" = Normal [strayD; strayE; commitA]
  /\ linearize [commitA; strayE; strayD] "A" <> linearize [commitA; strayD; strayE] "A".
Proof.
  split; [by_evaluation|]. split; [reflexivity|]. split; [reflexivity|].
  vm_compute. congruence.
Qed.

(** C6 (amended): for a listing that forms a single connected linear chain
    ending at the head sha, every permutation of the listing has the same
    outcome: the chain in ancestry order or, when an entry has no parents,
    the [TypeError]. *)
Theorem order_independence_on_chains commits commits' headSha :
  forms_linear_chain commits headSha ->
  commits' ≡ₚ commits ->
  linearize commits' headSha = linearize commits headSha.
Proof.
  intros (chain & Hperm & Hchain) Hshuffle.
  destruct (decide (Forall has_first_parent chain)) as [Hparents|Hbad].
  - rewrite (linearize_chain commits chain), (linearize_chain commits' chain);
      [done|by rewrite Hshuffle|done..].
  - rewrite !linearize_missing_parent; [done|by rewrite Hperm|].
    by rewrite Hshuffle, Hperm.
Qed.

Lemma order_independence_on_chains_witness :
  forms_linear_chain [commitC; commitA; commitB] "C"
  /\ [commitB; commitC; commitA] ≡ₚ [commitC; commitA; commitB]
  /\ linearize [commitB; commitC; commitA] "C" = linearize [commitC; commitA; commitB] "C".
Proof.
  assert (Hchain : forms_linear_chain [commitC; commitA; commitB] "C").
  { exists [commitA; commitB; commitC]. split; [by_evaluation|apply sample_chain]. }
  assert (Hshuffle : [commitB; commitC; commitA] ≡ₚ [commitC; commitA; commitB])
    by by_evaluation.
  split; [exact Hchain|]. split; [exact Hshuffle|].
  exact (order_independence_on_chains _ _ "C" Hchain Hshuffle).
Defined.

(** C7, as stated, fails: the walk from the head [C] ends at [B], whose
    parent is not listed, but the entry [D] off that walk ends up first. *)
Lemma stray_entry_displaces_root :
  walk_from [commitC; baseB; strayD] "C" [commitC; baseB]
  /\ last [commitC; baseB] = Some baseB
  /\ first_parent baseB = Some "X"
  /\ ("X" ∉ sha <$> [commitC; baseB; strayD])
  /\ linearize [commitC; baseB; strayD] "C" = Normal [strayD; baseB; commitC]
  /\ head [strayD; baseB; commitC] <> Some baseB.
Proof.
  split.
  { split; [done|]. split.
    - intros [|[|i]] c d Hc Hd; by simplify_eq/=.
    - intros c Hin.
      repeat (apply elem_of_cons in Hin as [->|Hin]); [by_evaluation..|].
      by apply elem_of_nil in Hin. }
  split; [done|]. split; [done|]. split; [by_evaluation|].
  split; [reflexivity|by_evaluation].
Qed.

(** C7 (amended): when shas are unique, every entry lies on the walk from the
    head, and the entry reached last on that walk has a first parent that is
    no listed entry's sha, the reordering returns normally with that entry at
    index 0, and the entry at index 0 has no first parent resolvable within
    the listing. *)
Theorem root_detection commits headSha walk r p :
  walk_from commits headSha walk ->
  walk ≡ₚ commits ->
  NoDup (sha <$> commits) ->
  last walk = Some r ->
  first_parent r = Some p ->
  p ∉ sha <$> commits ->
  exists out,
    linearize commits headSha = Normal out
    /\ head out = Some r
    /\ ~ resolvable commits r.
Proof.
  intros (Hhead & Hdesc & _) Hperm Hnd Hlast Hp Hout.
  assert (Hunres : ~ resolvable commits r).
  { intros (p' & Hp' & Hin). congruence. }
  exists (reverse walk). split; [|split; [by rewrite head_reverse|done]].
  apply linearize_chain.
  - by rewrite reverse_Permutation.
  - split.
    + by rewrite reverse_Permutation, Hperm.
    + by apply descending_reverse.
    + rewrite head_reverse, Hlast. intros r' [= <-] (p' & Hp' & Hin).
      apply Hunres. exists p'. split; [done|].
      by rewrite <- Hperm, <- (reverse_Permutation walk).
    + by rewrite last_reverse.
  - rewrite reverse_Permutation. apply Forall_lookup. intros i c Hi.
    destruct (walk !! S i) as [d|] eqn:HSi.
    + unfold has_first_parent. fold (first_parent c).
      by rewrite (Hdesc i c d Hi HSi).
    + assert (c = r) as ->.
      { rewrite last_lookup in Hlast.
        apply lookup_ge_None in HSi. apply lookup_lt_Some in Hi as Hlt.
        replace (pred (length walk)) with i in Hlast by lia. congruence. }
      unfold has_first_parent. fold (first_parent r). by rewrite Hp.
Qed.

Lemma root_detection_witness :
  walk_from [commitB; commitC; commitA] "C" [commitC; commitB; commitA]
  /\ [commitC; commitB; commitA] ≡ₚ [commitB; commitC; commitA]
  /\ NoDup (sha <$> [commitB; commitC; commitA])
  /\ last [commitC; commitB; commitA] = Some commitA
  /\ first_parent commitA = Some "X"
  /\ ("X" ∉ sha <$> [commitB; commitC; commitA])
  /\ exists out,
       linearize [commitB; commitC; commitA] "C" = Normal out
       /\ head out = Some commitA
       /\ ~ resolvable [commitB; commitC; commitA] commitA.
Proof.
  assert (Hwalk : walk_from [commitB; commitC; commitA] "C" [commitC; commitB; commitA]).
  { split; [done|]. split.
    - intros [|[|[|i]]] c d Hc Hd; by simplify_eq/=.
    - intros c Hin.
      repeat (apply elem_of_cons in Hin as [->|Hin]); [by_evaluation..|].
      by apply elem_of_nil in Hin. }
  assert (Hperm : [commitC; commitB; commitA] ≡ₚ [commitB; commitC; commitA])
    by by_evaluation.
  assert (Hnd : NoDup (sha <$> [commitB; commitC; commitA])) by by_evaluation.
  assert (Hout : "X" ∉ sha <$> [commitB; commitC; commitA]) by by_evaluation.
  repeat (split; [done|]).
  exact (root_detection _ "C" _ commitA "X" Hwalk Hperm Hnd eq_refl eq_refl Hout).
Defined.

(** C9, as stated, fails: a listing made of one root commit without parents
    does not come back. *)
Lemma parentless_entry_throws :
  rootA ∈ [rootA] /\ parents rootA = []
  /\ linearize [rootA] "A" = Throw TypeError.
Proof. split; [by_evaluation|]. split; reflexivity. Qed.

(** C9 (amended): a listing that contains an entry with an empty parents
    list is not reordered: the call throws the [TypeError] raised by reading
    [parents[0].sha] on that entry. *)
Theorem missing_parent_is_type_error commits headSha c :
  c ∈ commits -> parents c = [] ->
  linearize commits headSha = Throw TypeError.
Proof.
  intros Hin Hnone. apply linearize_missing_parent.
  rewrite Forall_forall. intros Hall.
  destruct (Hall c Hin) as [p Hp]. unfold first_parent in Hp. by rewrite Hnone in Hp.
Qed.

Lemma missing_parent_is_type_error_witness :
  rootA ∈ [commitC; rootA; commitB] /\ parents rootA = []
  /\ linearize [commitC; rootA; commitB] "C" = Throw TypeError.
Proof.
  assert (Hin : rootA ∈ [commitC; rootA; commitB]) by by_evaluation.
  split; [exact Hin|]. split; [reflexivity|].
  exact (missing_parent_is_type_error [commitC; rootA; commitB] "C" rootA Hin eq_refl).
Defined.

(** C10: when the reordering returns, the returned sequence is a permutation
    of the input, so every input entry appears exactly once, nothing is
    introduced and the lengths agree, whatever the connectivity. *)
Theorem linearize_is_permutation commits headSha out :
  linearize commits headSha = Normal out ->
  out ≡ₚ commits /\ length out = length commits.
Proof.
  intros Hrun. pose proof (linearize_perm _ _ _ Hrun) as Hperm.
  split; [done|by rewrite Hperm].
Qed.

Lemma linearize_is_permutation_witness :
  linearize [commitA; strayD; commitC; baseB] "C"
    = Normal [strayD; commitA; baseB; commitC]
  /\ [strayD; commitA; baseB; commitC] ≡ₚ [commitA; strayD; commitC; baseB]
  /\ length [strayD; commitA; baseB; commitC] = length [commitA; strayD; commitC; baseB].
Proof.
  split; [reflexivity|].
  apply (linearize_is_permutation [commitA; strayD; commitC; baseB] "C").
  reflexivity.
Defined.

(** ** Temporary references *)

Section TemporaryRef.
Context {W T : Type}.
Variable generateUuid : W -> W * string.
Variable octokit : Octokit W.
Variable action : Ref -> Async W T.
Variables (owner : RepoOwner) (ref : Ref) (repo : RepoName) (sha : Sha).

(** What [createTemporaryRef] amounts to: one uuid drawn, one creation
    request for [refs/heads/<ref>-<uuid>]. *)
Lemma createTemporaryRef_run (w : W) :
  let name := ref +:+ "-" +:+ (generateUuid w).2 in
  let sent := git_createRef octokit owner (getFullyQualifiedRef name) repo sha
                (generateUuid w).1 in
  createTemporaryRef generateUuid octokit owner ref repo sha w
  = mkRun [GitCreateRef owner (getFullyQualifiedRef name) repo sha] sent.1
      match sent.2 with
      | Normal _ => Normal (deleteRef octokit owner name repo, name)
      | Throw e => Throw e
      | Diverge => Diverge
      end.
Proof.
  unfold createTemporaryRef, await, generateUniqueRef, createRef, request, resolve.
  destruct (generateUuid w) as [w1 uuid]. simpl.
  destruct (git_createRef _ _ _ _ _ _) as [w2 [[]| |]]; simpl; reflexivity.
Qed.

(** Once the temporary ref exists, [withTemporaryRef] is the [try]/[finally]
    statement run in the world the creation left. *)
Lemma withTemporaryRef_created (w : W) del tmp :
  completion (createTemporaryRef generateUuid octokit owner ref repo sha w)
    = Normal (del, tmp) ->
  let created := createTemporaryRef generateUuid octokit owner ref repo sha w in
  let scoped := try_finally (call_action action tmp)
                  (deleteRef octokit owner tmp repo) (world created) in
  withTemporaryRef generateUuid octokit action owner ref repo sha w
  = mkRun (trace created ++ trace scoped) (world scoped) (completion scoped).
Proof.
  intros Hcreated. unfold withTemporaryRef, await. rewrite Hcreated.
  rewrite createTemporaryRef_run in Hcreated. simpl in Hcreated.
  destruct (git_createRef _ _ _ _ _ _).2 as [[]| |]; [|done..].
  by injection Hcreated as <- <-.
Qed.

Lemma createTemporaryRef_name (w : W) del tmp :
  completion (createTemporaryRef generateUuid octokit owner ref repo sha w)
    = Normal (del, tmp) ->
  tmp = ref +:+ "-" +:+ (generateUuid w).2.
Proof.
  rewrite createTemporaryRef_run. simpl.
  destruct (git_createRef _ _ _ _ _ _).2 as [[]| |]; [|done..].
  by intros [= _ <-].
Qed.

Lemma createTemporaryRef_trace (w : W) :
  trace (createTemporaryRef generateUuid octokit owner ref repo sha w)
  = [GitCreateRef owner
       (getFullyQualifiedRef (ref +:+ "-" +:+ (generateUuid w).2)) repo sha].
Proof. by rewrite createTemporaryRef_run. Qed.

(** C2 (amended): once the temporary ref exists and the action has completed,
    what [withTemporaryRef] propagates is decided by the deletion: when the
    deletion succeeds, the action's own completion (its error when it raised);
    when the deletion fails, the deletion's error, whether the action raised
    or returned (the last error wins). *)
Theorem cleanup_failure_takes_over (w : W) del tmp :
  completion (createTemporaryRef generateUuid octokit owner ref repo sha w)
    = Normal (del, tmp) ->
  let created := createTemporaryRef generateUuid octokit owner ref repo sha w in
  let ran := action tmp (world created) in
  completion ran <> Diverge ->
  completion (withTemporaryRef generateUuid octokit action owner ref repo sha w)
  = match (git_deleteRef octokit owner (getHeadRef tmp) repo (world ran)).2 with
    | Normal _ => completion ran
    | Throw deletionError => Throw deletionError
    | Diverge => Diverge
    end.
Proof.
  intros Hcreated created ran Hcompletes.
  rewrite (withTemporaryRef_created _ _ _ Hcreated). simpl.
  unfold try_finally, call_action, deleteRef, request. simpl.
  fold created. fold ran.
  destruct (completion ran) eqn:Hran; [| |done];
    by destruct (git_deleteRef _ _ _ _ _) as [w3 [[]| |]].
Qed.

(** C5: once the temporary ref exists, and whether the action returns or
    raises, the events of [withTemporaryRef] are the creation, the action's
    call, whatever the action did, and then one deletion request for the
    temporary ref and nothing more. *)
Theorem cleanup_exactly_once (w : W) del tmp :
  completion (createTemporaryRef generateUuid octokit owner ref repo sha w)
    = Normal (del, tmp) ->
  let created := createTemporaryRef generateUuid octokit owner ref repo sha w in
  let ran := action tmp (world created) in
  completion ran <> Diverge ->
  trace (withTemporaryRef generateUuid octokit action owner ref repo sha w)
    = trace created ++ ActionCall tmp :: trace ran
        ++ [GitDeleteRef owner (getHeadRef tmp) repo]
  /\ deletions_of owner tmp repo
       (trace (withTemporaryRef generateUuid octokit action owner ref repo sha w))
     = S (deletions_of owner tmp repo (trace ran)).
Proof.
  intros Hcreated created ran Hcompletes.
  assert (Htrace :
    trace (withTemporaryRef generateUuid octokit action owner ref repo sha w)
    = trace created ++ ActionCall tmp :: trace ran
        ++ [GitDeleteRef owner (getHeadRef tmp) repo]).
  { rewrite (withTemporaryRef_created _ _ _ Hcreated). simpl.
    unfold try_finally, call_action, deleteRef, request. simpl.
    fold created. fold ran.
    destruct (completion ran) eqn:Hran; [| |done];
      by destruct (git_deleteRef _ _ _ _ _) as [w3 c]. }
  split; [done|]. rewrite Htrace. unfold created, deletions_of.
  rewrite createTemporaryRef_trace. simpl.
  rewrite filter_cons_False by done. rewrite filter_cons_False by done.
  rewrite filter_app, length_app. simpl.
  rewrite filter_cons_True by done. simpl. lia.
Qed.

(** C8: the name drawn for a base ref is the base name, a hyphen and the
    uuid handed out; the creation request is for [refs/heads/] followed by
    that very name, at the supplied sha; and when the creation succeeds it is
    the name [createTemporaryRef] returns and the one the action is called
    with (when it fails the action is not called). *)
Theorem temporary_ref_name (w : W) :
  let name := ref +:+ "-" +:+ (generateUuid w).2 in
  completion (generateUniqueRef generateUuid ref w) = Normal name
  /\ trace (createTemporaryRef generateUuid octokit owner ref repo sha w)
     = [GitCreateRef owner ("refs/heads/" +:+ name) repo sha]
  /\ match completion (createTemporaryRef generateUuid octokit owner ref repo sha w) with
     | Normal (_, temporaryRef) =>
       temporaryRef = name
       /\ exists rest,
           trace (withTemporaryRef generateUuid octokit action owner ref repo sha w)
           = GitCreateRef owner ("refs/heads/" +:+ name) repo sha
               :: ActionCall name :: rest
     | _ =>
       trace (withTemporaryRef generateUuid octokit action owner ref repo sha w)
       = [GitCreateRef owner ("refs/heads/" +:+ name) repo sha]
     end.
Proof.
  intros name. split; [|split].
  - unfold generateUniqueRef, name. by destruct (generateUuid w).
  - by rewrite createTemporaryRef_trace.
  - destruct (completion (createTemporaryRef _ _ _ _ _ _ _)) as [[del tmp]|e|] eqn:Hc.
    + pose proof (createTemporaryRef_name _ _ _ Hc) as ->. split; [done|].
      rewrite (withTemporaryRef_created _ _ _ Hc). simpl.
      rewrite createTemporaryRef_trace. simpl.
      unfold try_finally, call_action. simpl.
      destruct (completion (action _ _)); simpl; by eexists.
    + unfold withTemporaryRef, await. rewrite Hc. simpl.
      by rewrite createTemporaryRef_trace.
    + unfold withTemporaryRef, await. rewrite Hc. simpl.
      by rewrite createTemporaryRef_trace.
Qed.
End TemporaryRef.

(** C2, as stated, fails: the action raises [Err] after removing the
    temporary ref itself, the deletion in the [finally] block is then refused
    by the remote, and it is that refusal, not [Err], that comes out. *)
Lemma deletion_error_masks_action_error :
  completion fake_created = Normal (deleteRef fake_octokit "owner" fake_name "repo", fake_name)
  /\ completion (deleting_action fake_name (world fake_created)) = Throw ActionError
  /\ completion (run_fake deleting_action) = Throw RefNotFoundError
  /\ completion (run_fake deleting_action) <> Throw ActionError.
Proof.
  split; [reflexivity|]. split; [reflexivity|]. split; [reflexivity|].
  vm_compute. congruence.
Qed.

Lemma cleanup_failure_takes_over_witness :
  completion fake_created = Normal (deleteRef fake_octokit "owner" fake_name "repo", fake_name)
  /\ completion (failing_action fake_name (world fake_created)) <> Diverge
  /\ completion (run_fake failing_action)
     = match (git_deleteRef fake_octokit "owner" (getHeadRef fake_name) "repo"
                (world (failing_action fake_name (world fake_created)))).2 with
       | Normal _ => completion (failing_action fake_name (world fake_created))
       | Throw deletionError => Throw deletionError
       | Diverge => Diverge
       end.
Proof.
  assert (Hcompletes : completion (failing_action fake_name (world fake_created)) <> Diverge)
    by (vm_compute; congruence).
  split; [reflexivity|]. split; [exact Hcompletes|].
  exact (cleanup_failure_takes_over fake_generateUuid fake_octokit failing_action
           "owner" "foo" "repo" "abc123" fake_start
           (deleteRef fake_octokit "owner" fake_name "repo") fake_name
           eq_refl Hcompletes).
Defined.

Lemma cleanup_exactly_once_witness :
  completion fake_created = Normal (deleteRef fake_octokit "owner" fake_name "repo", fake_name)
  /\ completion (failing_action fake_name (world fake_created)) <> Diverge
  /\ completion (echo_action fake_name (world fake_created)) <> Diverge
  /\ (trace (run_fake failing_action)
      = trace fake_created ++ ActionCall fake_name
          :: trace (failing_action fake_name (world fake_created))
          ++ [GitDeleteRef "owner" (getHeadRef fake_name) "repo"]
      /\ deletions_of "owner" fake_name "repo" (trace (run_fake failing_action))
         = S (deletions_of "owner" fake_name "repo"
                (trace (failing_action fake_name (world fake_created)))))
  /\ (trace (run_fake echo_action)
      = trace fake_created ++ ActionCall fake_name
          :: trace (echo_action fake_name (world fake_created))
          ++ [GitDeleteRef "owner" (getHeadRef fake_name) "repo"]
      /\ deletions_of "owner" fake_name "repo" (trace (run_fake echo_action))
         = S (deletions_of "owner" fake_name "repo"
                (trace (echo_action fake_name (world fake_created))))).
Proof.
  assert (Hraises : completion (failing_action fake_name (world fake_created)) <> Diverge)
    by (vm_compute; congruence).
  assert (Hreturns : completion (echo_action fake_name (world fake_created)) <> Diverge)
    by (vm_compute; congruence).
  split; [reflexivity|]. split; [exact Hraises|]. split; [exact Hreturns|]. split.
  - exact (cleanup_exactly_once fake_generateUuid fake_octokit failing_action
             "owner" "foo" "repo" "abc123" fake_start
             (deleteRef fake_octokit "owner" fake_name "repo") fake_name
             eq_refl Hraises).
  - exact (cleanup_exactly_once fake_generateUuid fake_octokit echo_action
             "owner" "foo" "repo" "abc123" fake_start
             (deleteRef fake_octokit "owner" fake_name "repo") fake_name
             eq_refl Hreturns).
Defined.

(** The run of the specification's example: base ref [foo], sha [abc123],
    an action that throws [Err]. *)
Example failing_action_run :
  trace (run_fake failing_action)
  = [GitCreateRef "owner" ("refs/heads/" +:+ fake_name) "repo" "abc123";
     ActionCall fake_name;
     GitDeleteRef "owner" ("heads/" +:+ fake_name) "repo"]
  /\ completion (run_fake failing_action) = Throw ActionError.
Proof. split; reflexivity. Qed.

Example echo_action_run :
  completion (run_fake echo_action) = Normal fake_name.
Proof. reflexivity. Qed.

(** [fetchCommits] against the fake remote, whose pull request lists
    [C], [A], [B] with head [C]. *)
Example fetchCommits_run :
  completion (fetchCommits fake_octokit "owner" 1 "repo" fake_start)
  = Normal ["A"; "B"; "C"]
  /\ trace (fetchCommits fake_octokit "owner" 1 "repo" fake_start)
     = [PullsListCommits 1 "owner" "repo"; PullsGet 1 "owner" "repo"].
Proof. split; reflexivity. Qed.

(** ** More on the reordering *)

(** With a first parent on every entry no round of the second loop nest
    throws. *)
Lemma inner_loop_returns fuel : forall j i commits,
  length commits - i < fuel -> j < length commits ->
  Forall has_first_parent commits ->
  exists commits', inner_loop fuel j i commits = Normal commits'.
Proof.
  induction fuel as [|fuel IH]; intros j i l Hfuel Hj Hall; [lia|].
  cbn [inner_loop].
  destruct (decide (i < length l)) as [Hlt|]; [|by eexists].
  destruct (lookup_in_range l i Hlt) as [ci Hi]. rewrite Hi.
  destruct (lookup_in_range l j Hj) as [cj Hcj]. rewrite Hcj.
  destruct (proj1 (Forall_lookup _ _) Hall j cj Hcj) as [p Hp].
  unfold first_parent in Hp. rewrite Hp.
  destruct (decide (sha ci = p)).
  - apply IH.
    + rewrite (length_move_to _ _ _ _ Hi). lia.
    + by rewrite (length_move_to _ _ _ _ Hi).
    + by rewrite (move_to_perm _ _ _ _ Hi).
  - apply IH; [lia|done|done].
Qed.

Lemma outer_loop_returns fuel : forall j commits,
  length commits - j < fuel ->
  Forall has_first_parent commits ->
  exists commits', outer_loop fuel j commits = Normal commits'.
Proof.
  induction fuel as [|fuel IH]; intros j l Hfuel Hall; [lia|].
  cbn [outer_loop].
  destruct (decide (j < length l)) as [Hlt|]; [|by eexists].
  destruct (inner_loop_returns (S (length l)) j 0 l) as [l1 Hin]; [lia|done|done|].
  rewrite Hin. cbn [and_then].
  pose proof (inner_loop_perm _ _ _ _ _ Hin) as Hperm.
  apply IH; rewrite Hperm; [lia|done].
Qed.

(** X1: the reordering returns a sequence exactly when every listed entry
    has a first parent; otherwise it throws. *)
Theorem linearize_returns_iff commits headSha :
  (exists out, linearize commits headSha = Normal out)
  <-> Forall has_first_parent commits.
Proof.
  split.
  - intros [out Hrun]. by apply (linearize_reads_every_parent _ _ _ Hrun).
  - intros Hall. unfold linearize.
    destruct (head_loop_total (S (length commits)) 0 headSha commits) as [c1 H1]; [lia|].
    rewrite H1. cbn [and_then].
    pose proof (head_loop_perm _ _ _ _ _ H1) as Hperm.
    destruct (outer_loop_returns (S (length c1)) 0 c1) as [c2 H2];
      [lia|by rewrite Hperm|].
    rewrite H2. cbn [and_then]. by eexists.
Qed.

(** After the first loop the entry at index 0 carries [headSha], unless no
    entry does. *)
Lemma head_loop_front fuel : forall i headSha commits commits',
  head_loop fuel i headSha commits = Normal commits' ->
  ((exists c, commits !! 0 = Some c /\ sha c = headSha)
   \/ forall k c, k < i -> commits !! k = Some c -> sha c <> headSha) ->
  (exists c, commits' !! 0 = Some c /\ sha c = headSha)
  \/ forall c, c ∈ commits' -> sha c <> headSha.
Proof.
  induction fuel as [|fuel IH]; intros i h l l' Hrun Hinv;
    cbn [head_loop] in Hrun; [done|].
  destruct (decide (i < length l)) as [Hlt|Hge].
  - destruct (l !! i) as [ci|] eqn:Hi; [|done].
    destruct (decide (sha ci = h)) as [Heq|Hne].
    + apply (IH _ _ _ _ Hrun). left. exists ci. split; [|done].
      unfold move_to, splice_insert. by rewrite take_0.
    + apply (IH _ _ _ _ Hrun).
      destruct Hinv as [Hfront|Hnone]; [by left|right].
      intros k c Hk Hc. destruct (decide (k = i)) as [->|]; [congruence|].
      apply (Hnone k c); [lia|done].
  - inversion Hrun; subst l'.
    destruct Hinv as [Hfront|Hnone]; [by left|right].
    intros c Hc. apply list_elem_of_lookup_1 in Hc as [k Hk].
    apply (Hnone k c); [|done]. apply lookup_lt_Some in Hk. lia.
Qed.

(** Moving an entry from an index past 0 to an index past 0 leaves index 0
    alone. *)
Lemma move_to_lookup_front {A} i k (x : A) (l : list A) :
  l !! i = Some x -> 0 < i -> move_to i (S k) x l !! 0 = l !! 0.
Proof.
  intros Hi Hpos.
  apply list_elem_of_split_length in Hi as (a & b & -> & ->).
  destruct a as [|a0 a]; [simpl in Hpos; lia|].
  unfold move_to. rewrite splice_remove_middle. reflexivity.
Qed.

Lemma inner_loop_keeps_front fuel : forall j i headSha commits commits' c0,
  inner_loop fuel j i commits = Normal commits' ->
  (forall c, c ∈ commits -> first_parent c <> Some headSha) ->
  commits !! 0 = Some c0 -> sha c0 = headSha ->
  commits' !! 0 = Some c0.
Proof.
  induction fuel as [|fuel IH]; intros j i h l l' c0 Hrun Hnochild H0 Hsha;
    cbn [inner_loop] in Hrun; [done|].
  destruct (decide (i < length l)) as [Hlt|Hge]; [|by inversion Hrun; subst].
  destruct (l !! i) as [ci|] eqn:Hi; [|done].
  destruct (l !! j) as [cj|] eqn:Hcj; [|done].
  destruct (parents cj !! 0) as [p|] eqn:Hp; [|done].
  destruct (decide (sha ci = p)) as [Heq|Hne].
  - apply (IH _ _ h _ _ c0 Hrun).
    + intros c Hc. apply Hnochild. by rewrite (move_to_perm i (S j) ci l Hi) in Hc.
    + rewrite move_to_lookup_front; [done|done|].
      destruct i; [|lia]. exfalso.
      apply (Hnochild cj); [by eapply list_elem_of_lookup_2|].
      unfold first_parent. rewrite Hp. congruence.
    + done.
  - by apply (IH _ _ h _ _ c0 Hrun).
Qed.

Lemma outer_loop_keeps_front fuel : forall j headSha commits commits' c0,
  outer_loop fuel j commits = Normal commits' ->
  (forall c, c ∈ commits -> first_parent c <> Some headSha) ->
  commits !! 0 = Some c0 -> sha c0 = headSha ->
  commits' !! 0 = Some c0.
Proof.
  induction fuel as [|fuel IH]; intros j h l l' c0 Hrun Hnochild H0 Hsha;
    cbn [outer_loop] in Hrun; [done|].
  destruct (decide (j < length l)) as [Hlt|Hge]; [|by inversion Hrun; subst].
  destruct (inner_loop _ j 0 l) as [l1| |] eqn:Hin; cbn [and_then] in Hrun; try done.
  apply (IH _ h _ _ c0 Hrun).
  - intros c Hc. apply Hnochild. by rewrite (inner_loop_perm _ _ _ _ _ Hin) in Hc.
  - by apply (inner_loop_keeps_front _ _ _ h _ _ c0 Hin).
  - done.
Qed.

(** X2: whatever else is listed, when some entry carries the head sha and no
    entry has the head sha as its first parent, a returned sequence ends with
    an entry carrying the head sha. *)
Theorem head_comes_last commits headSha out :
  (exists c, c ∈ commits /\ sha c = headSha) ->
  (forall c, c ∈ commits -> first_parent c <> Some headSha) ->
  linearize commits headSha = Normal out ->
  exists h, last out = Some h /\ sha h = headSha.
Proof.
  intros (c & Hc & Hsha) Hnochild. unfold linearize. intros Hrun.
  destruct (head_loop _ 0 headSha commits) as [c1| |] eqn:H1;
    cbn [and_then] in Hrun; try done.
  destruct (outer_loop _ 0 c1) as [c2| |] eqn:H2; cbn [and_then] in Hrun; try done.
  injection Hrun as <-.
  pose proof (head_loop_perm _ _ _ _ _ H1) as Hperm.
  destruct (head_loop_front _ _ _ _ _ H1) as [(c0 & H0 & Hsha0)|Hnone].
  - right. intros k c' Hk. lia.
  - exists c0. split; [|done].
    rewrite last_reverse, head_lookup.
    apply (outer_loop_keeps_front _ _ headSha _ _ c0 H2); [|done|done].
    intros c' Hc'. apply Hnochild. by rewrite Hperm in Hc'.
  - destruct (Hnone c); [by rewrite Hperm|done].
Qed.

Lemma head_comes_last_witness :
  (exists c, c ∈ [strayD; commitA; commitC; baseB] /\ sha c = "C")
  /\ (forall c, c ∈ [strayD; commitA; commitC; baseB] -> first_parent c <> Some "C")
  /\ linearize [strayD; commitA; commitC; baseB] "C"
     = Normal [commitA; strayD; baseB; commitC]
  /\ exists h, last [commitA; strayD; baseB; commitC] = Some h /\ sha h = "C".
Proof.
  assert (Hhead : exists c, c ∈ [strayD; commitA; commitC; baseB] /\ sha c = "C").
  { exists commitC. split; [by_evaluation|reflexivity]. }
  assert (Hnochild : forall c, c ∈ [strayD; commitA; commitC; baseB] ->
                               first_parent c <> Some "C").
  { intros c Hin.
    repeat (apply elem_of_cons in Hin as [->|Hin]); [by_evaluation..|].
    by apply elem_of_nil in Hin. }
  split; [exact Hhead|]. split; [exact Hnochild|]. split; [reflexivity|].
  exact (head_comes_last [strayD; commitA; commitC; baseB] "C"
           [commitA; strayD; baseB; commitC] Hhead Hnochild eq_refl).
Defined.

(** The loops commute with any relabelling of the entries that keeps shas
    and first parents. *)
Section Relabelling.
Variable f : PullsListCommitsResponseItem -> PullsListCommitsResponseItem.
Hypothesis f_sha : forall c, sha (f c) = sha c.
Hypothesis f_first_parent : forall c, first_parent (f c) = first_parent c.

Lemma fmap_move_to i k x commits :
  f <$> move_to i k x commits = move_to i k (f x) (f <$> commits).
Proof.
  unfold move_to, splice_insert, splice_remove.
  by rewrite fmap_app, fmap_cons, fmap_take, fmap_drop, fmap_app, fmap_take, fmap_drop.
Qed.

Lemma head_loop_fmap fuel : forall i headSha commits,
  head_loop fuel i headSha (f <$> commits)
  = map_completion (fmap f) (head_loop fuel i headSha commits).
Proof.
  induction fuel as [|fuel IH]; intros i h l; [done|]. cbn [head_loop].
  rewrite length_fmap, list_lookup_fmap.
  destruct (decide (i < length l)); [|done].
  destruct (l !! i) as [ci|]; simpl; [|done].
  rewrite f_sha. destruct (decide (sha ci = h)); [|done].
  by rewrite <- fmap_move_to.
Qed.

Lemma inner_loop_fmap fuel : forall j i commits,
  inner_loop fuel j i (f <$> commits)
  = map_completion (fmap f) (inner_loop fuel j i commits).
Proof.
  induction fuel as [|fuel IH]; intros j i l; [done|]. cbn [inner_loop].
  rewrite length_fmap, !list_lookup_fmap.
  destruct (decide (i < length l)); [|done].
  destruct (l !! i) as [ci|]; simpl; [|done].
  destruct (l !! j) as [cj|]; simpl; [|done].
  pose proof (f_first_parent cj) as Hfp. unfold first_parent in Hfp. rewrite Hfp.
  destruct (parents cj !! 0) as [p|]; [|done].
  rewrite f_sha. destruct (decide (sha ci = p)); [|done].
  by rewrite <- fmap_move_to.
Qed.

Lemma outer_loop_fmap fuel : forall j commits,
  outer_loop fuel j (f <$> commits)
  = map_completion (fmap f) (outer_loop fuel j commits).
Proof.
  induction fuel as [|fuel IH]; intros j l; [done|]. cbn [outer_loop].
  rewrite length_fmap, inner_loop_fmap.
  destruct (decide (j < length l)); [|done].
  destruct (inner_loop _ j 0 l) as [l1| |]; simpl; [|done..].
  apply IH.
Qed.

(** X3: the reordering looks at nothing but the sha and the first parent of
    an entry: relabelling the entries in a way that keeps both (dropping
    further parents, changing author, message or tree) relabels the outcome
    and changes nothing else. *)
Theorem linearize_sees_sha_and_first_parent commits headSha :
  linearize (f <$> commits) headSha
  = map_completion (fmap f) (linearize commits headSha).
Proof.
  unfold linearize. rewrite length_fmap, head_loop_fmap.
  destruct (head_loop _ 0 headSha commits) as [c1| |];
    unfold map_completion; cbn [and_then]; [|done..].
  rewrite length_fmap, outer_loop_fmap.
  destruct (outer_loop _ 0 c1) as [c2| |];
    unfold map_completion; cbn [and_then]; [|done..].
  by rewrite fmap_reverse.
Qed.
End Relabelling.

Lemma first_parent_only_first_parent c :
  first_parent (first_parent_only c) = first_parent c.
Proof. unfold first_parent. simpl. by destruct (parents c). Qed.

Lemma linearize_sees_sha_and_first_parent_witness :
  (forall c, sha (first_parent_only c) = sha c)
  /\ (forall c, first_parent (first_parent_only c) = first_parent c)
  /\ linearize (first_parent_only <$> [commitA; mergeC; commitB]) "C"
     = map_completion (fmap first_parent_only)
         (linearize [commitA; mergeC; commitB] "C").
Proof.
  split; [reflexivity|]. split; [exact first_parent_only_first_parent|].
  exact (linearize_sees_sha_and_first_parent first_parent_only
           (fun c => eq_refl) first_parent_only_first_parent
           [commitA; mergeC; commitB] "C").
Defined.

(** X4: the first loop, on a listing where one entry carries the head sha,
    brings that entry to index 0 and leaves the other entries in their listed
    order. *)
Theorem head_placement (before after : list PullsListCommitsResponseItem) h headSha :
  sha h = headSha ->
  (forall c, c ∈ before ++ after -> sha c <> headSha) ->
  head_loop (S (length (before ++ h :: after))) 0 headSha (before ++ h :: after)
  = Normal (h :: before ++ after).
Proof.
  intros Hsha Hothers.
  assert (Hh : (before ++ h :: after) !! length before = Some h)
    by (by rewrite lookup_app_r, Nat.sub_diag).
  rewrite (head_loop_one_match _ 0 (length before) headSha _ h); [|lia|done|done|lia|].
  - unfold move_to. rewrite splice_remove_middle. unfold splice_insert.
    by rewrite take_0, drop_0.
  - intros k c _ Hne Hk. apply Hothers.
    apply lookup_app_Some in Hk as [Hk|[Hge Hk]].
    + apply elem_of_app. left. by eapply list_elem_of_lookup_2.
    + destruct (k - length before) as [|m] eqn:Hm; [lia|]. simpl in Hk.
      apply elem_of_app. right. by eapply list_elem_of_lookup_2.
Qed.

Lemma head_placement_witness :
  sha commitC = "C"
  /\ (forall c, c ∈ [commitA; strayD] ++ [commitB] -> sha c <> "C")
  /\ head_loop (S (length ([commitA; strayD] ++ commitC :: [commitB]))) 0 "C"
       ([commitA; strayD] ++ commitC :: [commitB])
     = Normal (commitC :: [commitA; strayD] ++ [commitB]).
Proof.
  assert (Hothers : forall c, c ∈ [commitA; strayD] ++ [commitB] -> sha c <> "C").
  { intros c Hin. simpl in Hin.
    repeat (apply elem_of_cons in Hin as [->|Hin]); [by_evaluation..|].
    by apply elem_of_nil in Hin. }
  split; [reflexivity|]. split; [exact Hothers|].
  exact (head_placement [commitA; strayD] [commitB] commitC "C" eq_refl Hothers).
Defined.

(** ** [fetchCommitsDetails] and [fetchCommits] with their remote reads *)

Section Fetch.
Context {W : Type}.
Variable octokit : Octokit W.
Variables (owner : RepoOwner) (number : PullRequestNumber) (repo : RepoName).

(** Both reads answered: what remains is the reordering. *)
Lemma fetchCommitsDetails_after_reads (w w1 w2 : W) commits headSha :
  paginate_pulls_listCommits octokit number owner repo w = (w1, Normal commits) ->
  pulls_get octokit number owner repo w1 = (w2, Normal headSha) ->
  fetchCommitsDetails octokit owner number repo w
  = mkRun [PullsListCommits number owner repo; PullsGet number owner repo] w2
      (map_completion (map getCommitsDetails) (linearize commits headSha)).
Proof.
  intros Hlist Hget.
  unfold fetchCommitsDetails, await, request, settle, resolve. rewrite Hlist. simpl.
  rewrite Hget. simpl.
  by destruct (linearize commits headSha).
Qed.

Lemma fetchCommits_after_reads (w w1 w2 : W) commits headSha :
  paginate_pulls_listCommits octokit number owner repo w = (w1, Normal commits) ->
  pulls_get octokit number owner repo w1 = (w2, Normal headSha) ->
  fetchCommits octokit owner number repo w
  = mkRun [PullsListCommits number owner repo; PullsGet number owner repo] w2
      (map_completion (map sha) (linearize commits headSha)).
Proof.
  intros Hlist Hget. unfold fetchCommits, await.
  rewrite (fetchCommitsDetails_after_reads _ _ _ _ _ Hlist Hget). simpl.
  destruct (linearize commits headSha) as [out| |]; simpl; [|done..].
  unfold resolve, settle. simpl. do 2 f_equal.
  induction out as [|c out IH]; simpl; [done|]. by rewrite IH.
Qed.

(** X5: when the pull request's commits form a single linear chain ending at
    the pull request's head and each has a first parent, [fetchCommitsDetails]
    sends the listing request, then the pull request lookup, and resolves with
    the details of the chain, oldest first; [fetchCommits] resolves with its
    shas in the same order. *)
Theorem fetchCommits_on_chain (w w1 w2 : W) commits headSha chain :
  paginate_pulls_listCommits octokit number owner repo w = (w1, Normal commits) ->
  pulls_get octokit number owner repo w1 = (w2, Normal headSha) ->
  commits ≡ₚ chain ->
  linear_chain chain headSha ->
  Forall has_first_parent commits ->
  fetchCommitsDetails octokit owner number repo w
  = mkRun [PullsListCommits number owner repo; PullsGet number owner repo] w2
      (Normal (map getCommitsDetails chain))
  /\ fetchCommits octokit owner number repo w
     = mkRun [PullsListCommits number owner repo; PullsGet number owner repo] w2
         (Normal (map sha chain)).
Proof.
  intros Hlist Hget Hperm Hchain Hparents.
  assert (Hrun : linearize commits headSha = Normal chain)
    by (apply linearize_chain; [done|done|by rewrite <- Hperm]).
  rewrite (fetchCommitsDetails_after_reads _ _ _ _ _ Hlist Hget),
          (fetchCommits_after_reads _ _ _ _ _ Hlist Hget), Hrun.
  done.
Qed.

(** X6: when the listing request is refused, [fetchCommitsDetails] and
    [fetchCommits] reject with the remote's error as it is, and the pull
    request lookup is never sent. *)
Theorem fetch_stops_at_failed_listing (w w1 : W) e :
  paginate_pulls_listCommits octokit number owner repo w = (w1, Throw e) ->
  fetchCommitsDetails octokit owner number repo w
  = mkRun [PullsListCommits number owner repo] w1 (Throw e)
  /\ fetchCommits octokit owner number repo w
     = mkRun [PullsListCommits number owner repo] w1 (Throw e).
Proof.
  intros Hlist.
  assert (Hdetails : fetchCommitsDetails octokit owner number repo w
                     = mkRun [PullsListCommits number owner repo] w1 (Throw e)).
  { unfold fetchCommitsDetails, await, request. by rewrite Hlist. }
  split; [done|]. unfold fetchCommits, await. by rewrite Hdetails.
Qed.

(** X7: when the listing is read but the pull request lookup is refused,
    both functions reject with that error and no reordering is returned. *)
Theorem fetch_stops_at_failed_lookup (w w1 w2 : W) commits e :
  paginate_pulls_listCommits octokit number owner repo w = (w1, Normal commits) ->
  pulls_get octokit number owner repo w1 = (w2, Throw e) ->
  fetchCommitsDetails octokit owner number repo w
  = mkRun [PullsListCommits number owner repo; PullsGet number owner repo] w2 (Throw e)
  /\ fetchCommits octokit owner number repo w
     = mkRun [PullsListCommits number owner repo; PullsGet number owner repo] w2 (Throw e).
Proof.
  intros Hlist Hget.
  assert (Hdetails : fetchCommitsDetails octokit owner number repo w
    = mkRun [PullsListCommits number owner repo; PullsGet number owner repo] w2 (Throw e)).
  { unfold fetchCommitsDetails, await, request. rewrite Hlist. simpl. by rewrite Hget. }
  split; [done|]. unfold fetchCommits, await. by rewrite Hdetails.
Qed.

(** X8: a pull request that lists a commit without parents makes
    [fetchCommitsDetails] and [fetchCommits] reject with a [TypeError], after
    both reads. *)
Theorem fetch_rejects_parentless_commit (w w1 w2 : W) commits headSha c :
  paginate_pulls_listCommits octokit number owner repo w = (w1, Normal commits) ->
  pulls_get octokit number owner repo w1 = (w2, Normal headSha) ->
  c ∈ commits -> parents c = [] ->
  fetchCommitsDetails octokit owner number repo w
  = mkRun [PullsListCommits number owner repo; PullsGet number owner repo] w2
      (Throw TypeError)
  /\ fetchCommits octokit owner number repo w
     = mkRun [PullsListCommits number owner repo; PullsGet number owner repo] w2
         (Throw TypeError).
Proof.
  intros Hlist Hget Hin Hnone.
  assert (Hrun : linearize commits headSha = Throw TypeError).
  { apply linearize_missing_parent. rewrite Forall_forall. intros Hall.
    destruct (Hall c Hin) as [p Hp]. unfold first_parent in Hp.
    by rewrite Hnone in Hp. }
  rewrite (fetchCommitsDetails_after_reads _ _ _ _ _ Hlist Hget),
          (fetchCommits_after_reads _ _ _ _ _ Hlist Hget), Hrun.
  done.
Qed.
End Fetch.

Lemma fetchCommits_on_chain_witness :
  paginate_pulls_listCommits fake_octokit 1 "owner" "repo" fake_start
    = (fake_start, Normal [commitC; commitA; commitB])
  /\ pulls_get fake_octokit 1 "owner" "repo" fake_start = (fake_start, Normal "C")
  /\ [commitC; commitA; commitB] ≡ₚ [commitA; commitB; commitC]
  /\ linear_chain [commitA; commitB; commitC] "C"
  /\ Forall has_first_parent [commitC; commitA; commitB]
  /\ fetchCommitsDetails fake_octokit "owner" 1 "repo" fake_start
     = mkRun [PullsListCommits 1 "owner" "repo"; PullsGet 1 "owner" "repo"] fake_start
         (Normal (map getCommitsDetails [commitA; commitB; commitC]))
  /\ fetchCommits fake_octokit "owner" 1 "repo" fake_start
     = mkRun [PullsListCommits 1 "owner" "repo"; PullsGet 1 "owner" "repo"] fake_start
         (Normal (map sha [commitA; commitB; commitC])).
Proof.
  assert (Hperm : [commitC; commitA; commitB] ≡ₚ [commitA; commitB; commitC])
    by by_evaluation.
  assert (Hparents : Forall has_first_parent [commitC; commitA; commitB])
    by by_evaluation.
  split; [reflexivity|]. split; [reflexivity|]. split; [exact Hperm|].
  split; [exact sample_chain|]. split; [exact Hparents|].
  exact (fetchCommits_on_chain fake_octokit "owner" 1 "repo" fake_start fake_start
           fake_start _ "C" _ eq_refl eq_refl Hperm sample_chain Hparents).
Defined.

Lemma fetch_stops_at_failed_listing_witness :
  paginate_pulls_listCommits unlisted_octokit 1 "owner" "repo" fake_start
    = (fake_start, Throw HttpError)
  /\ fetchCommitsDetails unlisted_octokit "owner" 1 "repo" fake_start
     = mkRun [PullsListCommits 1 "owner" "repo"] fake_start (Throw HttpError)
  /\ fetchCommits unlisted_octokit "owner" 1 "repo" fake_start
     = mkRun [PullsListCommits 1 "owner" "repo"] fake_start (Throw HttpError).
Proof.
  split; [reflexivity|].
  exact (fetch_stops_at_failed_listing unlisted_octokit "owner" 1 "repo"
           fake_start fake_start HttpError eq_refl).
Defined.

Lemma fetch_stops_at_failed_lookup_witness :
  paginate_pulls_listCommits pullless_octokit 1 "owner" "repo" fake_start
    = (fake_start, Normal [commitC; commitA; commitB])
  /\ pulls_get pullless_octokit 1 "owner" "repo" fake_start
     = (fake_start, Throw HttpError)
  /\ fetchCommitsDetails pullless_octokit "owner" 1 "repo" fake_start
     = mkRun [PullsListCommits 1 "owner" "repo"; PullsGet 1 "owner" "repo"]
         fake_start (Throw HttpError)
  /\ fetchCommits pullless_octokit "owner" 1 "repo" fake_start
     = mkRun [PullsListCommits 1 "owner" "repo"; PullsGet 1 "owner" "repo"]
         fake_start (Throw HttpError).
Proof.
  split; [reflexivity|]. split; [reflexivity|].
  exact (fetch_stops_at_failed_lookup pullless_octokit "owner" 1 "repo"
           fake_start fake_start fake_start _ HttpError eq_refl eq_refl).
Defined.

Lemma fetch_rejects_parentless_commit_witness :
  paginate_pulls_listCommits fake_octokit 1 "owner" "repo" fake_rooted
    = (fake_rooted, Normal [commitC; rootA; commitB])
  /\ pulls_get fake_octokit 1 "owner" "repo" fake_rooted = (fake_rooted, Normal "C")
  /\ rootA ∈ [commitC; rootA; commitB]
  /\ parents rootA = []
  /\ fetchCommitsDetails fake_octokit "owner" 1 "repo" fake_rooted
     = mkRun [PullsListCommits 1 "owner" "repo"; PullsGet 1 "owner" "repo"]
         fake_rooted (Throw TypeError)
  /\ fetchCommits fake_octokit "owner" 1 "repo" fake_rooted
     = mkRun [PullsListCommits 1 "owner" "repo"; PullsGet 1 "owner" "repo"]
         fake_rooted (Throw TypeError).
Proof.
  assert (Hin : rootA ∈ [commitC; rootA; commitB]) by by_evaluation.
  split; [reflexivity|]. split; [reflexivity|]. split; [exact Hin|].
  split; [reflexivity|].
  exact (fetch_rejects_parentless_commit fake_octokit "owner" 1 "repo"
           fake_rooted fake_rooted fake_rooted _ "C" rootA eq_refl eq_refl Hin eq_refl).
Defined.

(** ** More on the reference helpers *)

Lemma string_app_inj_r (s t1 t2 : string) : s +:+ t1 = s +:+ t2 -> t1 = t2.
Proof.
  induction s as [|a s IH]; simpl; [done|].
  intros Heq. injection Heq as Heq. by apply IH.
Qed.

(** X9: two refs are addressed by the same remote name, in the [heads/]
    form or in the fully qualified form, only when they are the same ref; and
    the fully qualified name is the [heads/] name behind [refs/]. *)
Theorem qualified_names_distinguish_refs (ref1 ref2 : Ref) :
  (getHeadRef ref1 = getHeadRef ref2 <-> ref1 = ref2)
  /\ (getFullyQualifiedRef ref1 = getFullyQualifiedRef ref2 <-> ref1 = ref2)
  /\ getFullyQualifiedRef ref1 = "refs/heads/" +:+ ref1.
Proof.
  split; [|split; [|done]].
  - split; [|by intros ->]. apply (string_app_inj_r "heads/").
  - split; [|by intros ->]. apply (string_app_inj_r "refs/heads/").
Qed.

Section TemporaryRefMore.
Context {W T : Type}.
Variable generateUuid : W -> W * string.
Variable octokit : Octokit W.
Variable action : Ref -> Async W T.
Variables (owner : RepoOwner) (ref : Ref) (repo : RepoName) (sha : Sha).

(** X10: for one base ref, worlds that hand out different uuids yield
    different temporary names, each starting with the base ref and a hyphen. *)
Theorem unique_ref_follows_uuid (w w' : W) :
  (generateUuid w).2 <> (generateUuid w').2 ->
  exists name name',
    completion (generateUniqueRef generateUuid ref w) = Normal name
    /\ completion (generateUniqueRef generateUuid ref w') = Normal name'
    /\ name <> name'
    /\ name = ref +:+ "-" +:+ (generateUuid w).2
    /\ name' = ref +:+ "-" +:+ (generateUuid w').2.
Proof.
  intros Hdiff. unfold generateUniqueRef.
  destruct (generateUuid w) as [w1 u], (generateUuid w') as [w1' u']. simpl in *.
  exists (ref +:+ "-" +:+ u), (ref +:+ "-" +:+ u').
  repeat split; try done.
  intros Heq. apply Hdiff.
  apply string_app_inj_r in Heq. by apply (string_app_inj_r "-") in Heq.
Qed.

(** X11: when the remote refuses to create the temporary ref,
    [withTemporaryRef] rejects with that refusal; the creation request is the
    only one sent: the action is not called and no deletion is requested. *)
Theorem creation_failure_stops (w : W) e :
  let name := ref +:+ "-" +:+ (generateUuid w).2 in
  let sent := git_createRef octokit owner (getFullyQualifiedRef name) repo sha
                (generateUuid w).1 in
  sent.2 = Throw e ->
  withTemporaryRef generateUuid octokit action owner ref repo sha w
  = mkRun [GitCreateRef owner (getFullyQualifiedRef name) repo sha] sent.1 (Throw e).
Proof.
  intros name sent Hrefused.
  unfold withTemporaryRef, await. rewrite createTemporaryRef_run. simpl.
  fold name. fold sent. by rewrite Hrefused.
Qed.

(** X12: when the action's promise never settles, [withTemporaryRef] never
    settles either and requests no deletion: its events are the creation, the
    call of the action and what the action did. *)
Theorem pending_action_skips_cleanup (w : W) del tmp :
  completion (createTemporaryRef generateUuid octokit owner ref repo sha w)
    = Normal (del, tmp) ->
  let created := createTemporaryRef generateUuid octokit owner ref repo sha w in
  let ran := action tmp (world created) in
  completion ran = Diverge ->
  withTemporaryRef generateUuid octokit action owner ref repo sha w
  = mkRun (trace created ++ ActionCall tmp :: trace ran) (world ran) Diverge.
Proof.
  intros Hcreated created ran Hpending.
  rewrite (withTemporaryRef_created _ _ _ _ _ _ _ _ _ _ Hcreated). simpl.
  unfold try_finally, call_action. simpl. fold created. fold ran.
  by rewrite Hpending.
Qed.

(** X13: the [deleteTemporaryRef] that [createTemporaryRef] returns, run in
    any later world, sends one deletion request, for the [heads/] name of the
    returned temporary ref, the ref whose creation was requested under
    [refs/] followed by that same name, and completes as the remote answers. *)
Theorem deleteTemporaryRef_targets_created_ref (w later : W) del tmp :
  completion (createTemporaryRef generateUuid octokit owner ref repo sha w)
    = Normal (del, tmp) ->
  trace (createTemporaryRef generateUuid octokit owner ref repo sha w)
    = [GitCreateRef owner ("refs/" +:+ getHeadRef tmp) repo sha]
  /\ trace (del later) = [GitDeleteRef owner (getHeadRef tmp) repo]
  /\ world (del later) = (git_deleteRef octokit owner (getHeadRef tmp) repo later).1
  /\ completion (del later) = (git_deleteRef octokit owner (getHeadRef tmp) repo later).2.
Proof.
  rewrite createTemporaryRef_run. simpl.
  destruct (git_createRef _ _ _ _ _ _).2 as [[]| |]; [|done..].
  intros [= <- <-]. split; [done|].
  unfold deleteRef, request.
  by destruct (git_deleteRef _ _ _ _ _) as [w3 c].
Qed.
End TemporaryRefMore.

Lemma unique_ref_follows_uuid_witness :
  (fake_generateUuid fake_start).2 <> (fake_generateUuid (fake_generateUuid fake_start).1).2
  /\ exists name name',
       completion (generateUniqueRef fake_generateUuid "foo" fake_start) = Normal name
       /\ completion (generateUniqueRef fake_generateUuid "foo"
                        (fake_generateUuid fake_start).1) = Normal name'
       /\ name <> name'
       /\ name = "foo" +:+ "-" +:+ (fake_generateUuid fake_start).2
       /\ name' = "foo" +:+ "-" +:+ (fake_generateUuid (fake_generateUuid fake_start).1).2.
Proof.
  assert (Hdiff : (fake_generateUuid fake_start).2
                  <> (fake_generateUuid (fake_generateUuid fake_start).1).2)
    by (vm_compute; congruence).
  split; [exact Hdiff|].
  exact (unique_ref_follows_uuid fake_generateUuid "foo" fake_start
           (fake_generateUuid fake_start).1 Hdiff).
Defined.

Lemma creation_failure_stops_witness :
  (git_createRef fake_octokit "owner"
     (getFullyQualifiedRef ("foo" +:+ "-" +:+ (fake_generateUuid fake_taken).2))
     "repo" "abc123" (fake_generateUuid fake_taken).1).2
  = Throw RefAlreadyExistsError
  /\ trace (withTemporaryRef fake_generateUuid fake_octokit failing_action
              "owner" "foo" "repo" "abc123" fake_taken)
     = [GitCreateRef "owner" ("refs/heads/" +:+ fake_name) "repo" "abc123"]
  /\ completion (withTemporaryRef fake_generateUuid fake_octokit failing_action
                   "owner" "foo" "repo" "abc123" fake_taken)
     = Throw RefAlreadyExistsError.
Proof.
  split; [reflexivity|].
  rewrite (creation_failure_stops fake_generateUuid fake_octokit failing_action
             "owner" "foo" "repo" "abc123" fake_taken RefAlreadyExistsError eq_refl).
  split; reflexivity.
Defined.

Lemma pending_action_skips_cleanup_witness :
  completion fake_created = Normal (deleteRef fake_octokit "owner" fake_name "repo", fake_name)
  /\ completion (pending_action fake_name (world fake_created)) = Diverge
  /\ run_fake pending_action
     = mkRun (trace fake_created ++ ActionCall fake_name
                :: trace (pending_action fake_name (world fake_created)))
         (world (pending_action fake_name (world fake_created))) Diverge.
Proof.
  split; [reflexivity|]. split; [reflexivity|].
  exact (pending_action_skips_cleanup fake_generateUuid fake_octokit pending_action
           "owner" "foo" "repo" "abc123" fake_start
           (deleteRef fake_octokit "owner" fake_name "repo") fake_name
           eq_refl eq_refl).
Defined.

Lemma deleteTemporaryRef_targets_created_ref_witness :
  completion fake_created = Normal (deleteRef fake_octokit "owner" fake_name "repo", fake_name)
  /\ trace fake_created
     = [GitCreateRef "owner" ("refs/" +:+ getHeadRef fake_name) "repo" "abc123"]
  /\ trace (deleteRef fake_octokit "owner" fake_name "repo" (world fake_created))
     = [GitDeleteRef "owner" (getHeadRef fake_name) "repo"]
  /\ world (deleteRef fake_octokit "owner" fake_name "repo" (world fake_created))
     = (git_deleteRef fake_octokit "owner" (getHeadRef fake_name) "repo"
          (world fake_created)).1
  /\ completion (deleteRef fake_octokit "owner" fake_name "repo" (world fake_created))
     = (git_deleteRef fake_octokit "owner" (getHeadRef fake_name) "repo"
          (world fake_created)).2.
Proof.
  split; [reflexivity|].
  exact (deleteTemporaryRef_targets_created_ref fake_generateUuid fake_octokit
           "owner" "foo" "repo" "abc123" fake_start (world fake_created)
           (deleteRef fake_octokit "owner" fake_name "repo") fake_name eq_refl).
Defined.

(** ** The paginated [fetchCommits] of [git.js] *)

Section Pages.
Context {W R : Type}.
Variable data : R -> list PullsListCommitsResponseItem.
Variable getCommits :
  PullRequestNumber -> RepoOwner -> RepoName -> W -> W * Completion R.
Variable hasNextPage : R -> bool.
Variable getNextPage : R -> W -> W * Completion R.

Lemma next_pages_served (w : W) r rest w' :
  GitJs.serves hasNextPage getNextPage w r rest w' ->
  forall fuel shas, length rest < fuel ->
  GitJs.next_pages data hasNextPage getNextPage fuel r shas w
  = (w', Normal (shas ++ concat (map (GitJs.getCommitShas data) rest))).
Proof.
  induction 1 as [w r Hlast|w r w1 r1 rest w' Hmore Hnext _ IH];
    intros fuel shas Hfuel; (destruct fuel as [|fuel]; [simpl in Hfuel; lia|]);
    cbn [GitJs.next_pages].
  - rewrite Hlast. simpl. by rewrite app_nil_r.
  - rewrite Hmore, Hnext. rewrite IH by (simpl in Hfuel; lia).
    simpl. by rewrite <- app_assoc.
Qed.

Lemma next_pages_failed (w : W) r read e w' :
  GitJs.fails_after hasNextPage getNextPage w r read e w' ->
  forall fuel shas, length read < fuel ->
  GitJs.next_pages data hasNextPage getNextPage fuel r shas w = (w', Throw e).
Proof.
  induction 1 as [w r e w' Hmore Hnext|w r w1 r1 read e w' Hmore Hnext _ IH];
    intros fuel shas Hfuel; (destruct fuel as [|fuel]; [simpl in Hfuel; lia|]);
    cbn [GitJs.next_pages].
  - by rewrite Hmore, Hnext.
  - rewrite Hmore, Hnext. apply IH. simpl in Hfuel. lia.
Qed.

(** X14: when the remote answers the first request with a page and then
    serves the further pages one [getNextPage] at a time until a page reports
    no next page, [fetchCommits] of [git.js] returns the shas of all pages,
    page after page and in page order, having asked for nothing beyond the
    last page; a single page costs no [getNextPage] at all. *)
Theorem paginated_fetchCommits_concatenates (w w1 w' : W) r rest fuel
    (number : PullRequestNumber) (owner : RepoOwner) (repo : RepoName) :
  getCommits number owner repo w = (w1, Normal r) ->
  GitJs.serves hasNextPage getNextPage w1 r rest w' ->
  length rest < fuel ->
  GitJs.fetchCommits data getCommits hasNextPage getNextPage fuel number owner repo w
  = (w', Normal (concat (map (fun page => map sha (data page)) (r :: rest)))).
Proof.
  intros Hfirst Hserved Hfuel. unfold GitJs.fetchCommits. rewrite Hfirst.
  by rewrite (next_pages_served _ _ _ _ Hserved).
Qed.

(** X15: when a later page request is refused, [fetchCommits] of [git.js]
    rejects with that error: the shas of the pages read so far are not
    returned. *)
Theorem paginated_fetchCommits_fails_with_page (w w1 w' : W) r read e fuel
    (number : PullRequestNumber) (owner : RepoOwner) (repo : RepoName) :
  getCommits number owner repo w = (w1, Normal r) ->
  GitJs.fails_after hasNextPage getNextPage w1 r read e w' ->
  length read < fuel ->
  GitJs.fetchCommits data getCommits hasNextPage getNextPage fuel number owner repo w
  = (w', Throw e).
Proof.
  intros Hfirst Hfails Hfuel. unfold GitJs.fetchCommits. rewrite Hfirst.
  by rewrite (next_pages_failed _ _ _ _ _ Hfails).
Qed.
End Pages.

Lemma sample_pages_served :
  GitJs.serves paged_hasNextPage (paged_getNextPage None) 1 sample_pages
    [[[commitC]; [strayD]]; [[strayD]]] 3.
Proof.
  eapply GitJs.serves_next; [reflexivity|reflexivity|].
  eapply GitJs.serves_next; [reflexivity|reflexivity|].
  by apply GitJs.serves_last.
Qed.

Lemma sample_pages_break :
  GitJs.fails_after paged_hasNextPage (paged_getNextPage (Some 2)) 1 sample_pages
    [[[commitC]; [strayD]]] HttpError 3.
Proof.
  eapply GitJs.fails_later; [reflexivity|reflexivity|].
  by apply GitJs.fails_now.
Qed.

Lemma paginated_fetchCommits_concatenates_witness :
  paged_getCommits sample_pages 1 "owner" "repo" 0 = (1, Normal sample_pages)
  /\ GitJs.serves paged_hasNextPage (paged_getNextPage None) 1 sample_pages
       [[[commitC]; [strayD]]; [[strayD]]] 3
  /\ 2 < 3
  /\ GitJs.fetchCommits paged_data (paged_getCommits sample_pages) paged_hasNextPage
       (paged_getNextPage None) 3 1 "owner" "repo" 0
     = (3, Normal ["A"; "B"; "C"; "D"]).
Proof.
  split; [reflexivity|]. split; [exact sample_pages_served|]. split; [lia|].
  exact (paginated_fetchCommits_concatenates paged_data (paged_getCommits sample_pages)
           paged_hasNextPage (paged_getNextPage None) 0 1 3 sample_pages _ 3
           1 "owner" "repo" eq_refl sample_pages_served ltac:(simpl; lia)).
Defined.

Lemma paginated_fetchCommits_fails_with_page_witness :
  paged_getCommits sample_pages 1 "owner" "repo" 0 = (1, Normal sample_pages)
  /\ GitJs.fails_after paged_hasNextPage (paged_getNextPage (Some 2)) 1 sample_pages
       [[[commitC]; [strayD]]] HttpError 3
  /\ 1 < 3
  /\ GitJs.fetchCommits paged_data (paged_getCommits sample_pages) paged_hasNextPage
       (paged_getNextPage (Some 2)) 3 1 "owner" "repo" 0
     = (3, Throw HttpError).
Proof.
  split; [reflexivity|]. split; [exact sample_pages_break|]. split; [lia|].
  exact (paginated_fetchCommits_fails_with_page paged_data (paged_getCommits sample_pages)
           paged_hasNextPage (paged_getNextPage (Some 2)) 0 1 3 sample_pages _
           HttpError 3 1 "owner" "repo" eq_refl sample_pages_break ltac:(simpl; lia)).
Defined.

(** X16: whenever [fetchCommits] resolves, the shas it returns are the shas
    of the listed commits, each as often as listed: none is dropped, repeated
    or made up, whatever the shape of the history. *)
Theorem fetchCommits_keeps_every_sha {W : Type} (octokit : Octokit W)
    (owner : RepoOwner) (number : PullRequestNumber) (repo : RepoName)
    (w w1 w2 : W) commits headSha (shas : list Sha) :
  paginate_pulls_listCommits octokit number owner repo w = (w1, Normal commits) ->
  pulls_get octokit number owner repo w1 = (w2, Normal headSha) ->
  completion (fetchCommits octokit owner number repo w) = Normal shas ->
  shas ≡ₚ map sha commits /\ length shas = length commits.
Proof.
  intros Hlist Hget.
  rewrite (fetchCommits_after_reads _ _ _ _ _ _ _ _ _ Hlist Hget). simpl.
  destruct (linearize commits headSha) as [out| |] eqn:Hrun; [|done..].
  unfold map_completion. cbn [and_then]. intros [= <-].
  pose proof (linearize_perm _ _ _ Hrun) as Hperm.
  split.
  - by apply fmap_Permutation.
  - by rewrite length_map, Hperm.
Qed.

Lemma fetchCommits_keeps_every_sha_witness :
  paginate_pulls_listCommits fake_octokit 1 "owner" "repo" fake_start
    = (fake_start, Normal [commitC; commitA; commitB])
  /\ pulls_get fake_octokit 1 "owner" "repo" fake_start = (fake_start, Normal "C")
  /\ completion (fetchCommits fake_octokit "owner" 1 "repo" fake_start)
     = Normal ["A"; "B"; "C"]
  /\ ["A"; "B"; "C"] ≡ₚ map sha [commitC; commitA; commitB]
  /\ length ["A"; "B"; "C"] = length [commitC; commitA; commitB].
Proof.
  split; [reflexivity|]. split; [reflexivity|]. split; [reflexivity|].
  exact (fetchCommits_keeps_every_sha fake_octokit "owner" 1 "repo"
           fake_start fake_start fake_start _ "C" ["A"; "B"; "C"]
           eq_refl eq_refl eq_refl).
Defined.
